(** * nmea_seatalk_multiplexer: transports, NMEA read loop and binary codec

    A shallow embedding of [device_io.py] (classes [IO], [File], [TCP],
    [TCPClient]) and of [nmea/nmea.py] ([NMEADevice]), followed by the
    properties stated about them.  Coroutines are embedded as functions
    that pass the process environment and the instance explicitly; an
    [await] whose event has not arrived yet is the outcome [Suspend]. *)

From Stdlib Require Import ZArith Lia Ascii.
From stdpp Require Import gmap strings list fin_maps.

Open Scope Z_scope.

(** ** Bytes, Python values, exceptions *)

Abbreviation byte := Byte.byte.

#[global] Instance byte_eq_dec : EqDecision byte := Byte.byte_eq_dec.
#[global] Instance byte_countable : Countable byte :=
  inj_countable Byte.to_N Byte.of_N Byte.of_to_N.

(** What [read] hands out and [write] takes in: a [bytes] object or a [str]. *)
Inductive data : Type :=
  | Bytes (b : list byte)
  | Str (s : string).

#[global] Instance data_eq_dec : EqDecision data.
Proof. solve_decision. Defined.

(** The exception classes that the embedded code raises or catches. *)
Inductive exn : Type :=
  | OSError
  | TimeoutError
  | ConnectionError
  | FileNotFoundError
  | UnicodeDecodeError
  | UnicodeEncodeError
  | AttributeError
  | TypeError
  | NMEAParseError
  | UnknownNMEATag
  | TaskCancelled
  | OtherException (name : string).

#[global] Instance exn_eq_dec : EqDecision exn.
Proof. solve_decision. Defined.

(** [except (TimeoutError, ConnectionError, OSError)]: the three names and
    the subclasses of [OSError] among the classes above. *)
Definition connection_class (e : exn) : bool :=
  match e with
  | OSError | TimeoutError | ConnectionError | FileNotFoundError => true
  | _ => false
  end.

(** Result of running a coroutine up to its end or up to an [await] that
    cannot complete with the events seen so far. *)
Inductive outcome (A : Type) : Type :=
  | Return (a : A)
  | Raise (e : exn)
  | Suspend.
Arguments Return {A} a.
Arguments Raise {A} e.
Arguments Suspend {A}.

(** ** The process environment: logger, scheduler clock, file system *)

Inductive level : Type := Info | Warn | Error.

Definition address : Type := option (string * Z).

Inductive message : Type :=
  | CouldNotDecode (d : list byte)
  | CouldNotEncode (s : string)
  | NoClientConnected
  | WriteQueueFull (a : address) (port : Z)
  | ReadQueueFull (a : address) (port : Z)
  | ClientConnected (a : address)
  | ClientClosed (a : address)
  | TryingToConnect (ip : string) (port : Z)
  | ConnectionErrorRepr (e : exn)
  | CouldNotReadFrom (e : exn)
  | ErrorWhenReading (e : exn).

Inductive event : Type :=
  | Log (l : level) (m : message)
  | Sleep (seconds : Z)
  | SpawnWriteTask
  | CancelWriteTask
  | CloseClient (client : nat)
  | Flush
  | DeviceLog (l : level) (s : string)
  | DeviceRaw (s : string).

Record Env : Type := mkEnv {
  events : list event;
  files : gmap string (list byte)
}.

Definition emit (ev : event) (env : Env) : Env :=
  mkEnv (events env ++ [ev]) (files env).

(** ** Character encodings

    [bytes.decode(name)] and [str.encode(name)]; [None] stands for
    [UnicodeDecodeError], respectively [UnicodeEncodeError]. *)
Record Codec : Type := mkCodec {
  decode : list byte -> option string;
  encode : string -> option (list byte)
}.

Definition is_ascii (b : byte) : bool := (Byte.to_N b <? 128)%N.

Definition ascii_codec : Codec :=
  mkCodec
    (fun b => if forallb is_ascii b
              then Some (String.string_of_list_byte b) else None)
    (fun s => let b := String.list_byte_of_string s in
              if forallb is_ascii b then Some b else None).

(** ** class IO *)

(** The abstract methods and the overridable hooks of [IO].  [_write]
    returns what the backend's write returns: a byte count or [None]. *)
Class Backend (B : Type) : Type := {
  _read : Z -> Env -> B -> outcome (list byte) * Env * B;
  _write : data -> Env -> B -> outcome (option Z) * Env * B;
  initialize : Env -> B -> outcome unit * Env * B
}.

Record IO (B : Type) : Type := mkIO {
  _encoding : option Codec;
  _read_write_lock : bool;
  backend : B
}.
Arguments mkIO {B} _ _ _.
Arguments _encoding {B} _.
Arguments _read_write_lock {B} _.
Arguments backend {B} _.

Definition read {B} `{Backend B} (length : Z) (env : Env) (self : IO B)
  : outcome data * Env * IO B :=
  if _read_write_lock self then (Suspend, env, self)
  else
    match _read length env (backend self) with
    | (Suspend, env1, b1) => (Suspend, env1, mkIO (_encoding self) true b1)
    | (Raise e, env1, b1) => (Raise e, env1, mkIO (_encoding self) false b1)
    | (Return d, env1, b1) =>
        let self1 := mkIO (_encoding self) false b1 in
        match _encoding self with
        | Some enc =>
            match decode enc d with
            | Some s => (Return (Str s), env1, self1)
            | None =>
                (Return (Str ""), emit (Log Error (CouldNotDecode d)) env1, self1)
            end
        | None => (Return (Bytes d), env1, self1)
        end
    end.

(** The first half of [write]: [data.encode(self._encoding)] under [try]. *)
Definition write_encode {B} (d : data) (env : Env) (self : IO B)
  : outcome data * Env :=
  match _encoding self with
  | Some enc =>
      match d with
      | Str s =>
          match encode enc s with
          | Some b => (Return (Bytes b), env)
          | None => (Return (Bytes []), emit (Log Error (CouldNotEncode s)) env)
          end
      | Bytes _ => (Raise AttributeError, env)
      end
  | None => (Return d, env)
  end.

Definition write {B} `{Backend B} (d : data) (env : Env) (self : IO B)
  : outcome (option Z) * Env * IO B :=
  match write_encode d env self with
  | (Return d1, env1) =>
      if _read_write_lock self then (Suspend, env1, self)
      else
        match _write d1 env1 (backend self) with
        | (Suspend, env2, b2) => (Suspend, env2, mkIO (_encoding self) true b2)
        | (o, env2, b2) => (o, env2, mkIO (_encoding self) false b2)
        end
  | (Raise e, env1) => (Raise e, env1, self)
  | (Suspend, env1) => (Suspend, env1, self)
  end.

(** ** class File *)

Record File : Type := mkFile {
  _path_to_file : string;
  _last_index : Z
}.

(** [l[lo:hi]] with Python's treatment of negative and oversized bounds. *)
Definition slice_bound {A} (l : list A) (i : Z) : nat :=
  let n := Z.of_nat (length l) in
  Z.to_nat (if i <? 0 then Z.max (i + n) 0 else Z.min i n).

Definition py_slice {A} (l : list A) (lo hi : Z) : list A :=
  let a := slice_bound l lo in
  let b := slice_bound l hi in
  take (b - a)%nat (drop a l).

(** [File._read]: the file is opened and read whole on every call; the
    comparison of the [bytes] slice with the [str] [""] is never true, so
    the [curio.sleep(0)] under it is never reached. *)
Definition File_read (length : Z) (env : Env) (self : File)
  : outcome (list byte) * Env * File :=
  match files env !! _path_to_file self with
  | None => (Raise FileNotFoundError, env, self)
  | Some lines =>
      let ret_val :=
        py_slice lines (_last_index self) (_last_index self + length) in
      (Return ret_val, env,
       mkFile (_path_to_file self) (_last_index self + length))
  end.

(** Opening in mode ["ab"] creates a missing file; a [str] cannot be
    written to a binary file. *)
Definition File_write (d : data) (env : Env) (self : File)
  : outcome (option Z) * Env * File :=
  match d with
  | Bytes b =>
      let old := default [] (files env !! _path_to_file self) in
      (Return (Some (Z.of_nat (length b))),
       mkEnv (events env) (<[_path_to_file self := old ++ b]> (files env)),
       self)
  | Str _ =>
      let old := default [] (files env !! _path_to_file self) in
      (Raise TypeError,
       mkEnv (events env) (<[_path_to_file self := old]> (files env)),
       self)
  end.

Definition File_initialize (env : Env) (self : File)
  : outcome unit * Env * File :=
  match files env !! _path_to_file self with
  | Some _ => (Return (), env, self)
  | None => (Raise FileNotFoundError, env, self)
  end.

#[global] Instance File_backend : Backend File :=
  {| _read := File_read; _write := File_write; initialize := File_initialize |}.

(** ** curio.Queue, as far as the transports use it

    [put] on a full queue and [get] on an empty one suspend the caller;
    [None] stands for that. *)
Record Queue (A : Type) : Type := mkQueue {
  maxsize : nat;
  items : list A
}.
Arguments mkQueue {A} _ _.
Arguments maxsize {A} _.
Arguments items {A} _.

Definition full {A} (q : Queue A) : bool :=
  negb (maxsize q =? 0)%nat && (length (items q) =? maxsize q)%nat.

Definition put {A} (x : A) (q : Queue A) : option (Queue A) :=
  if full q then None else Some (mkQueue (maxsize q) (items q ++ [x])).

Definition get {A} (q : Queue A) : option (A * Queue A) :=
  match items q with
  | [] => None
  | x :: rest => Some (x, mkQueue (maxsize q) rest)
  end.

Definition qsize {A} (q : Queue A) : nat := length (items q).

(** ** class TCP *)

Record TCP : Type := mkTCP {
  clients : list nat;
  _port : Z;
  _address : address;
  _write_task_handle : bool;
  _read_write_size : nat;
  _read_queue : Queue (list byte);
  _temp_read_block : option (list byte);
  _write_queue : Queue data
}.

Definition TCP_init (port : Z) : TCP :=
  mkTCP [] port None false 1000 (mkQueue 1000 []) None (mkQueue 1000 []).

Definition set_clients (c : list nat) (s : TCP) : TCP :=
  mkTCP c (_port s) (_address s) (_write_task_handle s) (_read_write_size s)
        (_read_queue s) (_temp_read_block s) (_write_queue s).
Definition set_address (a : address) (s : TCP) : TCP :=
  mkTCP (clients s) (_port s) a (_write_task_handle s) (_read_write_size s)
        (_read_queue s) (_temp_read_block s) (_write_queue s).
Definition set_write_task_handle (h : bool) (s : TCP) : TCP :=
  mkTCP (clients s) (_port s) (_address s) h (_read_write_size s)
        (_read_queue s) (_temp_read_block s) (_write_queue s).
Definition set_read_queue (q : Queue (list byte)) (s : TCP) : TCP :=
  mkTCP (clients s) (_port s) (_address s) (_write_task_handle s)
        (_read_write_size s) q (_temp_read_block s) (_write_queue s).
Definition set_temp_read_block (t : option (list byte)) (s : TCP) : TCP :=
  mkTCP (clients s) (_port s) (_address s) (_write_task_handle s)
        (_read_write_size s) (_read_queue s) t (_write_queue s).
Definition set_write_queue (q : Queue data) (s : TCP) : TCP :=
  mkTCP (clients s) (_port s) (_address s) (_write_task_handle s)
        (_read_write_size s) (_read_queue s) (_temp_read_block s) q.

(** [TCP._read]: one byte per round of [for _ in range(length)], a new
    block fetched from the read queue whenever the current one is used up.
    When the queue is empty the coroutine is parked inside [get]. *)
Fixpoint TCP_read_loop (n : nat) (byte_array : list byte) (env : Env) (self : TCP)
  : outcome (list byte) * Env * TCP :=
  match n with
  | O => (Return byte_array, env, self)
  | S n' =>
      let fetched :=
        match _temp_read_block self with
        | Some (_ :: _) => Some self
        | _ =>
            match get (_read_queue self) with
            | Some (blk, q) =>
                Some (set_temp_read_block (Some blk) (set_read_queue q self))
            | None => None
            end
        end in
      match fetched with
      | None => (Suspend, env, self)
      | Some self1 =>
          let blk := default [] (_temp_read_block self1) in
          TCP_read_loop n' (byte_array ++ take 1 blk) env
                        (set_temp_read_block (Some (drop 1 blk)) self1)
      end
  end.

Definition TCP_read (length : Z) (env : Env) (self : TCP)
  : outcome (list byte) * Env * TCP :=
  TCP_read_loop (Z.to_nat length) [] env self.

Definition TCP_write (d : data) (env : Env) (self : TCP)
  : outcome (option Z) * Env * TCP :=
  let env1 :=
    match clients self with
    | [] => emit (Log Info NoClientConnected) env
    | _ => env
    end in
  if full (_write_queue self) then
    (Return None, emit (Log Warn (WriteQueueFull (_address self) (_port self))) env1,
     self)
  else
    match put d (_write_queue self) with
    | Some q => (Return None, env1, set_write_queue q self)
    | None => (Suspend, env1, self)
    end.

(** What one [await client.recv(self._read_write_size)] delivers. *)
Inductive recv : Type :=
  | Block (data_block : list byte)
  | RecvRaises (e : exn).

(** The body of the [while True] of [_serve_client] below the test for a
    disconnect, for one non-empty [data_block]. *)
Definition serve_block (data_block : list byte) (env : Env) (self : TCP)
  : outcome unit * Env * TCP :=
  if full (_read_queue self) then
    (Return (), emit (Log Warn (ReadQueueFull (_address self) (_port self))) env,
     self)
  else
    match put data_block (_read_queue self) with
    | Some q => (Return (), env, set_read_queue q self)
    | None => (Suspend, env, self)
    end.

Fixpoint serve_loop (script : list recv) (env : Env) (self : TCP)
  : outcome unit * Env * TCP :=
  match script with
  | [] => (Suspend, env, self)
  | RecvRaises e :: _ => (Raise e, env, self)
  | Block [] :: _ => (Return (), env, self)
  | Block data_block :: rest =>
      match serve_block data_block env self with
      | (Return _, env1, self1) => serve_loop rest env1 self1
      | r => r
      end
  end.

Fixpoint remove_first (x : nat) (l : list nat) : list nat :=
  match l with
  | [] => []
  | y :: r => if decide (x = y) then r else y :: remove_first x r
  end.

(** [except Exception]: the cancellation of a task reaches it as curio's
    [TaskCancelled], which derives from [BaseException] only and passes an
    [except Exception]; the other members of [exn] are classes derived
    from [Exception], [OtherException] standing for any further one. *)
Definition derives_from_Exception (e : exn) : bool :=
  match e with
  | TaskCancelled => false
  | _ => true
  end.

(** [TCP._serve_client], the statements of the serving coroutine itself:
    the client is closed under [except Exception], so not when the task
    is cancelled, and the [finally] suite runs on every way out.  The
    write task spawned here runs interleaved with the receive loop and
    takes items out of the write queue meanwhile; it is the coroutine
    [_write_task] and no part of this function. *)
Definition _serve_client (client : nat) (a : address) (script : list recv)
  (env : Env) (self : TCP) : outcome unit * Env * TCP :=
  let self1 := set_address a self in
  let env1 := emit (Log Info (ClientConnected a)) env in
  let self2 := set_write_task_handle true self1 in
  let env2 := emit SpawnWriteTask env1 in
  let self3 := set_clients (clients self2 ++ [client]) self2 in
  match serve_loop script env2 self3 with
  | (Suspend, env3, self4) => (Suspend, env3, self4)
  | (o, env3, self4) =>
      let env4 :=
        match o with
        | Raise e =>
            if derives_from_Exception e then emit (CloseClient client) env3
            else env3
        | _ => env3
        end in
      let env5 := emit (Log Warn (ClientClosed a)) env4 in
      let env6 := emit CancelWriteTask env5 in
      (o, env6,
       set_address None (set_clients (remove_first client (clients self4)) self4))
  end.

#[global] Instance TCP_backend : Backend TCP :=
  {| _read := TCP_read; _write := TCP_write;
     initialize := fun env self => (Return (), env, self) |}.

(** ** class TCPClient *)

Record TCPClient : Type := mkTCPClient {
  tcp : TCP;
  _ip : string;
  _serve_client_task : bool
}.

(** [curio.sleep] only ends early when the sleeping task is cancelled. *)
Inductive sleep_outcome : Type := Slept | SleepCancelled.

(** One round of the [while True] of [_open_connection] as the network
    decides it: what [curio.open_connection] does, what the peer sends if
    it connected, and whether the back-off sleep runs to its end. *)
Record attempt : Type := mkAttempt {
  connect : outcome nat;
  session : list recv;
  backoff : sleep_outcome
}.

Fixpoint _open_connection (script : list attempt) (env : Env) (self : TCPClient)
  : outcome Empty_set * Env * TCPClient :=
  match script with
  | [] => (Suspend, env, self)
  | a :: rest =>
      let env1 := emit (Log Info (TryingToConnect (_ip self) (_port (tcp self)))) env in
      let '(o, env2, tcp2) :=
        match connect a with
        | Return client =>
            _serve_client client (Some (_ip self, _port (tcp self)))
                          (session a) env1 (tcp self)
        | Raise e => (Raise e, env1, tcp self)
        | Suspend => (Suspend, env1, tcp self)
        end in
      let self2 := mkTCPClient tcp2 (_ip self) (_serve_client_task self) in
      match o with
      | Return _ => _open_connection rest env2 self2
      | Suspend => (Suspend, env2, self2)
      | Raise e =>
          if connection_class e then
            let env3 := emit (Log Error (ConnectionErrorRepr e)) env2 in
            let env4 := emit (Sleep 1) env3 in
            match backoff a with
            | Slept => _open_connection rest env4 self2
            | SleepCancelled => (Raise TaskCancelled, env4, self2)
            end
          else (Raise e, env2, self2)
      end
  end.

(** An attempt after which the loop goes on: a failure to connect or in
    the session is of the classes named by the [except] clause, and the
    back-off sleep is not cancelled. *)
Definition recoverable (a : attempt) : Prop :=
  backoff a = Slept
  /\ (forall e, connect a = Raise e -> connection_class e = true)
  /\ (forall e, RecvRaises e ∈ session a -> connection_class e = true).

(** ** nmea/nmea.py: class NMEADevice *)

Module NMEA.

(** The two static methods of [NMEADatagram] that the read task calls.
    They are synchronous: each returns ([None]) or raises ([Some e]).
    Whether [UnknownNMEATag] derives from [NMEAParseError] is decided in
    the module that declares them. *)
Class NMEADatagram : Type := {
  verify_checksum : string -> option exn;
  parse_nmea_sentence : string -> option exn;
  unknown_tag_is_parse_error : bool
}.

(** [except NMEAParseError] *)
Definition is_NMEAParseError `{NMEADatagram} (e : exn) : bool :=
  match e with
  | NMEAParseError => true
  | UnknownNMEATag => unknown_tag_is_parse_error
  | _ => false
  end.

Definition newline : string := String "010"%char "".

(** The device as the read task sees it: the items put into
    [self._read_queue], oldest first.  [put] on that queue waits for room
    and never drops, so the list is what a consumer takes out. *)
Record NMEADevice : Type := mkNMEADevice {
  _read_queue : list string
}.

Definition queue_put (x : string) (self : NMEADevice) : NMEADevice :=
  mkNMEADevice (_read_queue self ++ [x]).

(** [_receive_until_new_line], run against the results of the successive
    [await self._io_device.read()] calls.  Adding a [bytes] object to the
    [str] [received] raises [TypeError], handled like a [TypeError] of
    [read] itself. *)
Fixpoint _receive_until_new_line (reads : list (outcome data)) (received : string)
  (env : Env) : outcome string * Env * list (outcome data) :=
  match reads with
  | [] => (Suspend, env, [])
  | Suspend :: _ => (Suspend, env, reads)
  | Return (Str d) :: rest =>
      let received1 := received +:+ d in
      if decide (d = newline) then
        (Return received1, emit (DeviceRaw received1) env, rest)
      else _receive_until_new_line rest received1 env
  | Return (Bytes _) :: rest | Raise TypeError :: rest =>
      (Return "",
       emit (DeviceLog Error received)
            (emit (Log Error (ErrorWhenReading TypeError)) env),
       rest)
  | Raise e :: rest => (Raise e, env, rest)
  end.

(** The [try] suite of [_read_task], up to the first [put]. *)
Definition verified `{NMEADatagram} (data : string) (env : Env) (self : NMEADevice)
  : outcome unit * Env * NMEADevice :=
  match verify_checksum data with
  | Some e => (Raise e, env, self)
  | None =>
      match parse_nmea_sentence data with
      | None | Some UnknownNMEATag =>
          (Return (), emit (DeviceLog Info data) env, queue_put data self)
      | Some e => (Raise e, env, self)
      end
  end.

(** One round of the [while True] of [_read_task] once a line is there. *)
Definition _read_task_body `{NMEADatagram} (data : string) (env : Env)
  (self : NMEADevice) : outcome unit * Env * NMEADevice :=
  match verified data env self with
  | (Raise e, env1, self1) =>
      if is_NMEAParseError e then
        let env2 := emit Flush env1 in
        let env3 := emit (DeviceLog Error data) env2 in
        (Return (), emit (Log Error (CouldNotReadFrom e)) env3, self1)
      else (Raise e, env1, self1)
  | (Return _, env1, self1) => (Return (), env1, queue_put data self1)
  | (Suspend, env1, self1) => (Suspend, env1, self1)
  end.

(** [_read_task]; every round uses up at least one read, so
    [S (length reads)] rounds of fuel never run out first. *)
Fixpoint _read_task_rounds `{NMEADatagram} (fuel : nat) (reads : list (outcome data))
  (env : Env) (self : NMEADevice) : outcome Empty_set * Env * NMEADevice :=
  match fuel with
  | O => (Suspend, env, self)
  | S fuel1 =>
      match _receive_until_new_line reads "" env with
      | (Return data, env1, rest) =>
          match _read_task_body data env1 self with
          | (Return _, env2, self2) => _read_task_rounds fuel1 rest env2 self2
          | (Raise e, env2, self2) => (Raise e, env2, self2)
          | (Suspend, env2, self2) => (Suspend, env2, self2)
          end
      | (Raise e, env1, _) => (Raise e, env1, self)
      | (Suspend, env1, _) => (Suspend, env1, self)
      end
  end.

Definition _read_task `{NMEADatagram} (reads : list (outcome data)) (env : Env)
  (self : NMEADevice) : outcome Empty_set * Env * NMEADevice :=
  _read_task_rounds (S (length reads)) reads env self.

(** The reads that deliver the characters of [s] one at a time, as
    [read()] with its default length does. *)
Definition chars (s : string) : list (outcome data) :=
  map (fun c => Return (Str (String c ""))) (String.list_ascii_of_string s).

(** The reads of one line: its text without line ends, then the newline. *)
Definition line_reads (text : string) : list (outcome data) :=
  chars text ++ [Return (Str newline)].

Definition no_newline (text : string) : Prop :=
  Forall (fun c => c <> "010"%char) (String.list_ascii_of_string text).

(** A checksum test for examples: the sentence starts with a dollar sign,
    and its tag is known when the next character is [G]. *)
Definition sample_datagram : NMEADatagram :=
  {| verify_checksum := fun s =>
       match s with
       | String "$"%char _ => None
       | _ => Some NMEAParseError
       end;
     parse_nmea_sentence := fun s =>
       match s with
       | String _ (String "G"%char _) => None
       | _ => Some UnknownNMEATag
       end;
     unknown_tag_is_parse_error := true |}.

End NMEA.

(** ** The binary frame codec

    [seatalk/seatalk.py] and [seatalk/seatalk_datagram.py] are exercised by
    [tests/test_seatalk.py]; the codec below follows the specification's
    section on the binary frame. *)

Module Seatalk.

(** Modelled from the spec: the outcomes of a failed decode or encode
    named in the specification; the exception classes themselves are in
    the absent [seatalk] package. *)
Inductive decode_error : Type :=
  | UnrecognizedCommand
  | InsufficientData
  | ExcessData
  | ChecksumMismatch
  | DataValidationException.

#[global] Instance decode_error_eq_dec : EqDecision decode_error.
Proof. solve_decision. Defined.

(** Modelled from the spec: the bidirectional value map of a field, absent
    from the sources given; pairs of a semantic enumerant and its raw
    wire code, a missing key being a validation failure. *)
Definition value_map : Type := list (string * byte).

(** Modelled from the spec: lookup of the enumerant of a raw code. *)
Fixpoint enum_of (m : value_map) (b : byte) : option string :=
  match m with
  | [] => None
  | (e1, b1) :: rest => if decide (b1 = b) then Some e1 else enum_of rest b
  end.

(** Modelled from the spec: the per-field rule of a dispatch-table entry,
    one payload byte per field, carried as it is or through a value map. *)
Inductive field_rule : Type :=
  | RawField
  | MappedField (m : value_map).

(** Modelled from the spec: a semantic field of a datagram, absent from
    the sources given. *)
Inductive field_value : Type :=
  | RawValue (b : byte)
  | EnumValue (e : string).

#[global] Instance field_value_eq_dec : EqDecision field_value.
Proof. solve_decision. Defined.

(** Modelled from the spec: a dispatch-table entry, the frame-length rule
    (payload bytes expected for a length-encoding byte) and the field
    rules. *)
Record entry : Type := mkEntry {
  length_rule : byte -> nat;
  fields : list field_rule
}.

(** Modelled from the spec: the datagram, its command identity, the
    length-encoding byte it was framed with and its semantic fields. *)
Record Datagram : Type := mkDatagram {
  command : byte;
  length_code : byte;
  values : list field_value
}.

#[global] Instance Datagram_eq_dec : EqDecision Datagram.
Proof. solve_decision. Defined.

(** Modelled from the spec: decoding of one field, absent from the sources
    given; a raw code without enumerant fails. *)
Definition decode_field (r : field_rule) (b : byte) : option field_value :=
  match r with
  | RawField => Some (RawValue b)
  | MappedField m => EnumValue <$> enum_of m b
  end.

(** Modelled from the spec: the payload against the field rules of the
    entry, byte by byte, absent from the sources given. *)
Fixpoint decode_fields (rs : list field_rule) (payload : list byte)
  : option (list field_value) :=
  match rs, payload with
  | [], [] => Some []
  | r :: rs1, b :: payload1 =>
      match decode_field r b, decode_fields rs1 payload1 with
      | Some v, Some vs => Some (v :: vs)
      | _, _ => None
      end
  | _, _ => None
  end.

(** Modelled from the spec: the decode algorithm of the binary frame
    [[command][length-encoding][payload...][checksum]], steps (1) to (6);
    the checksum function and the dispatch table are parameters. *)
Definition decode_frame (checksum : list byte -> byte) (table : gmap byte entry)
  (frame : list byte) : decode_error + Datagram :=
  match frame with
  | [] => inl InsufficientData
  | cmd :: after_cmd =>
      match table !! cmd with
      | None => inl UnrecognizedCommand
      | Some e =>
          match after_cmd with
          | [] => inl InsufficientData
          | len :: body =>
              let expected := S (length_rule e len) in
              if (length body <? expected)%nat then inl InsufficientData
              else if (expected <? length body)%nat then inl ExcessData
              else
                let payload := take (length_rule e len) body in
                let trailer := drop (length_rule e len) body in
                if decide (trailer = [checksum (cmd :: len :: payload)]) then
                  match decode_fields (fields e) payload with
                  | Some vs => inr (mkDatagram cmd len vs)
                  | None => inl DataValidationException
                  end
                else inl ChecksumMismatch
          end
      end
  end.

(** Modelled from the spec: the Device's read loop over candidate frames,
    publishing each decoded datagram and logging each failed attempt. *)
Fixpoint device_loop (checksum : list byte -> byte) (table : gmap byte entry)
  (frames : list (list byte)) (published : list Datagram) (failed : list decode_error)
  : list Datagram * list decode_error :=
  match frames with
  | [] => (published, failed)
  | f :: rest =>
      match decode_frame checksum table f with
      | inr d => device_loop checksum table rest (published ++ [d]) failed
      | inl err => device_loop checksum table rest published (failed ++ [err])
      end
  end.

(** An entry of [n] payload bytes carried as they are. *)
Definition raw_entry (n : nat) : entry := mkEntry (fun _ => n) (replicate n RawField).

(** The commands of the frames of [get_parameters] in
    [tests/test_seatalk.py], each with the number of bytes its frame has
    between the length-encoding byte and the last byte; the first payload
    byte of the equipment frame names the equipment. *)

Definition equipments : value_map := [("ST60_Tridata", Byte.x04)].

Definition test_table : gmap byte entry :=
  list_to_map
    [ (Byte.x00, raw_entry 2);
      (Byte.x01, mkEntry (fun _ => 5%nat)
                   (MappedField equipments :: replicate 4 RawField));
      (Byte.x10, raw_entry 1);
      (Byte.x11, raw_entry 1); (Byte.x20, raw_entry 1); (Byte.x23, raw_entry 1);
      (Byte.x26, raw_entry 4); (Byte.x27, raw_entry 1); (Byte.x30, raw_entry 0);
      (Byte.x36, raw_entry 0); (Byte.x90, raw_entry 0); (Byte.x91, raw_entry 0) ].

(** A checksum for examples: the exclusive or of the bytes before it. *)
Definition xor_checksum (bs : list byte) : byte :=
  default Byte.x00
    (Byte.of_N (fold_right (fun b acc => N.lxor (Byte.to_N b) acc) 0%N bs)).

End Seatalk.

(** ** The read-write lock of [IO]

    [read] and [write] as the sequences of steps between which another
    task may run, over the one [_read_write_lock] of the instance. *)

Module Exclusion.

Inductive instr : Type :=
  | Encode
  | Acquire
  | BackendRead
  | BackendWrite
  | Release
  | Decode.

#[global] Instance instr_eq_dec : EqDecision instr.
Proof. solve_decision. Defined.

Inductive op : Type := Read | Write.

(** [async with self._read_write_lock: data = await self._read(length)]
    and then the decoding. *)
Definition read_prog : list instr := [Acquire; BackendRead; Release; Decode].

(** The encoding and then
    [async with self._read_write_lock: return await self._write(data)]. *)
Definition write_prog : list instr := [Encode; Acquire; BackendWrite; Release].

Definition prog_of (o : op) : list instr :=
  match o with
  | Read => read_prog
  | Write => write_prog
  end.

Definition compile (ops : list op) : list instr := concat (map prog_of ops).

(** One transport instance: who holds its lock, and what each task that
    uses the instance still has to run. *)
Record state : Type := mkState {
  lock : option nat;
  tasks : list (list instr)
}.

Definition initial (calls : list (list op)) : state :=
  mkState None (map compile calls).

Inductive step : state -> state -> Prop :=
  | step_acquire s t rest :
      tasks s !! t = Some (Acquire :: rest) ->
      lock s = None ->
      step s (mkState (Some t) (<[t := rest]> (tasks s)))
  | step_release s t rest :
      tasks s !! t = Some (Release :: rest) ->
      step s (mkState None (<[t := rest]> (tasks s)))
  | step_inner s t i rest :
      tasks s !! t = Some (i :: rest) ->
      i <> Acquire -> i <> Release ->
      step s (mkState (lock s) (<[t := rest]> (tasks s))).

Inductive reachable (calls : list (list op)) : state -> Prop :=
  | reach_initial : reachable calls (initial calls)
  | reach_step s s1 : reachable calls s -> step s s1 -> reachable calls s1.

(** A task is in the locked region from the step after [Acquire] up to and
    including its [Release]. *)
Definition locked (p : list instr) : bool :=
  match p with
  | BackendRead :: _ | BackendWrite :: _ | Release :: _ => true
  | _ => false
  end.

(** The remaining steps of a task are those of whole calls, entered with
    the lock held ([held = true]) or not. *)
Fixpoint bracketed (held : bool) (p : list instr) : bool :=
  match p with
  | [] => negb held
  | Acquire :: r => negb held && bracketed true r
  | Release :: r => held && bracketed false r
  | BackendRead :: r | BackendWrite :: r => held && bracketed true r
  | Encode :: r | Decode :: r => negb held && bracketed false r
  end.

(** What holds of every reachable state: each task's remaining steps are
    bracketed, entered with the lock held exactly by the lock's holder. *)
Definition lock_invariant (s : state) : Prop :=
  forall t p, tasks s !! t = Some p ->
              bracketed (bool_decide (lock s = Some t)) p = true.

End Exclusion.

(** ** Operations on one [TCP] instance in the order the scheduler runs
    them: a writer calling [_write], a block arriving in [_serve_client],
    the write task taking an item to send, a reader calling [_read]. *)

Inductive tcp_op : Type :=
  | OpWrite (d : data)
  | OpReceive (data_block : list byte)
  | OpSend
  | OpRead (length : Z).

Definition run_op (o : tcp_op) (env : Env) (self : TCP) : Env * TCP :=
  match o with
  | OpWrite d => let '(_, env1, self1) := TCP_write d env self in (env1, self1)
  | OpReceive b => let '(_, env1, self1) := serve_block b env self in (env1, self1)
  | OpSend =>
      match get (_write_queue self) with
      | Some (_, q) => (env, set_write_queue q self)
      | None => (env, self)
      end
  | OpRead n => let '(_, env1, self1) := TCP_read n env self in (env1, self1)
  end.

Fixpoint run_ops (os : list tcp_op) (env : Env) (self : TCP) : Env * TCP :=
  match os with
  | [] => (env, self)
  | o :: rest => let '(env1, self1) := run_op o env self in run_ops rest env1 self1
  end.

Definition within_bounds (self : TCP) : Prop :=
  (0 < _read_write_size self)%nat /\
  maxsize (_read_queue self) = _read_write_size self /\
  maxsize (_write_queue self) = _read_write_size self /\
  (qsize (_read_queue self) <= _read_write_size self)%nat /\
  (qsize (_write_queue self) <= _read_write_size self)%nat.

(** ** Further code of [device_io.py] and of the tests *)

(** Reads issued one after the other on a [File], against an unchanging
    file system, stopping at the first that does not return. *)
Fixpoint File_reads (ns : list Z) (env : Env) (self : File)
  : outcome (list (list byte)) * File :=
  match ns with
  | [] => (Return [], self)
  | n :: rest =>
      match File_read n env self with
      | (Return r, _, self1) =>
          match File_reads rest env self1 with
          | (Return rs, self2) => (Return (r :: rs), self2)
          | other => other
          end
      | (Raise e, _, self1) => (Raise e, self1)
      | (Suspend, _, self1) => (Suspend, self1)
      end
  end.

(** The bytes a [TCP] instance holds for its readers: what is left of the
    block in hand, then the queued blocks. *)
Definition buffered (self : TCP) : list byte :=
  default [] (_temp_read_block self) ++ concat (items (_read_queue self)).

(** [TCP._write_task]: each item taken from the write queue goes to every
    client in turn with [sendall], taken to succeed; the pairs sent are
    collected in order.  The task waits in [get] once the queue is
    empty. *)
Fixpoint _write_task_rounds (fuel : nat) (sent : list (nat * data)) (self : TCP)
  : outcome Empty_set * list (nat * data) * TCP :=
  match fuel with
  | O => (Suspend, sent, self)
  | S fuel1 =>
      match get (_write_queue self) with
      | None => (Suspend, sent, self)
      | Some (d, q) =>
          _write_task_rounds fuel1
            (sent ++ map (fun client => (client, d)) (clients self))
            (set_write_queue q self)
      end
  end.

Definition _write_task (self : TCP) : outcome Empty_set * list (nat * data) * TCP :=
  _write_task_rounds (S (qsize (_write_queue self))) [] self.

(** [Serial._get_parity_enum]; [serial.PARITY_NAMES] is a dictionary of
    the serial library, given here as its items in iteration order. *)
Inductive parity_arg : Type :=
  | ParityStr (s : string)
  | ParityOther (v : Z).

Fixpoint dict_get (d : list (string * string)) (k : string) : option string :=
  match d with
  | [] => None
  | (k1, v1) :: rest => if decide (k1 = k) then Some v1 else dict_get rest k
  end.

Fixpoint parity_search (d : list (string * string)) (keys : list string)
  (parity : string) : option string :=
  match keys with
  | [] => None
  | val :: rest =>
      if decide (dict_get d val = Some parity) then Some val
      else parity_search d rest parity
  end.

Definition _get_parity_enum (PARITY_NAMES : list (string * string))
  (parity : parity_arg) : parity_arg :=
  match parity with
  | ParityStr s =>
      if (1 <? String.length s)%nat then
        match parity_search PARITY_NAMES (PARITY_NAMES.*1) s with
        | Some val => ParityStr val
        | None => parity
        end
      else parity
  | ParityOther _ => parity
  end.

(** The table of the serial library. *)
Definition pyserial_parity_names : list (string * string) :=
  [("N", "None"); ("E", "Even"); ("O", "Odd"); ("M", "Mark"); ("S", "Space")].

(** [TestValueReceiver] of [tests/test_seatalk.py]: [l[:n]] and [l[n:]]
    with Python's treatment of negative and oversized [n]. *)
Record TestValueReceiver : Type := mkTestValueReceiver {
  bytes : list byte
}.

Definition TestValueReceiver_read (length : Z) (env : Env) (self : TestValueReceiver)
  : outcome (list byte) * Env * TestValueReceiver :=
  let ret_val := take (slice_bound (bytes self) length) (bytes self) in
  (Return ret_val, env,
   mkTestValueReceiver (drop (slice_bound (bytes self) length) (bytes self))).

Definition TestValueReceiver_write (d : data) (env : Env) (self : TestValueReceiver)
  : outcome (option Z) * Env * TestValueReceiver :=
  (Raise (OtherException "NotImplementedError"), env, self).

#[global] Instance TestValueReceiver_backend : Backend TestValueReceiver :=
  {| _read := TestValueReceiver_read; _write := TestValueReceiver_write;
     initialize := fun env self => (Return (), env, self) |}.

(** The lines of a run of [_read_task], each as the two queue items the
    task makes of it. *)
Definition doubled (lines : list string) : list string :=
  concat (map (fun l => [l; l]) lines).

(** A [TCP] instance with one byte left of the block in hand and two
    blocks queued, and a transport on a new instance. *)
Definition two_blocks : TCP :=
  mkTCP [] 10110 None false 1000
        (mkQueue 1000 [[Byte.x47; Byte.x50]; [Byte.x47]]) (Some [Byte.x24])
        (mkQueue 1000 []).

Definition idle_io : IO TCP := mkIO None false (TCP_init 10110).

(** ** Instances used as examples *)

(** A replay file holding the depth frame of the tests. *)
Definition replay_env : Env :=
  mkEnv [] {[ "seatalk_raw.hex" := [Byte.x00; Byte.x02; Byte.x00; Byte.xdb; Byte.x02] ]}.

(** A log file that starts with a byte outside ASCII, read as ASCII. *)
Definition latin_env : Env := mkEnv [] {[ "nmea.log" := [Byte.xe9] ]}.

Definition latin_io : IO File := mkIO (Some ascii_codec) false (mkFile "nmea.log" 0).

(** A [TCP] instance with room for two items per queue, its write queue
    and its read queue both full, and no client connected. *)
Definition full_tcp : TCP :=
  mkTCP [] 10110 None false 2
        (mkQueue 2 [[Byte.x24]; [Byte.x47]]) None
        (mkQueue 2 [Bytes [Byte.x24]; Bytes [Byte.x47]]).

(** A client of a plotter on the local network. *)
Definition plotter : TCPClient := mkTCPClient (TCP_init 10110) "192.168.0.7" false.

(** * Properties *)

(** ** Slices *)

Lemma py_slice_nonneg {A} (l : list A) (c n : Z) :
  0 <= c -> 0 <= n ->
  py_slice l c (c + n) = take (Z.to_nat n) (drop (Z.to_nat c) l).
Proof.
  intros Hc Hn. unfold py_slice, slice_bound.
  destruct (Z.ltb_spec c 0) as [?|_]; [lia|].
  destruct (Z.ltb_spec (c + n) 0) as [?|_]; [lia|].
  destruct (Z.le_gt_cases (Z.of_nat (length l)) c) as [Hge|Hlt].
  - rewrite !Z.min_r by lia. rewrite Nat2Z.id, Nat.sub_diag.
    rewrite !drop_ge by lia. by rewrite !take_nil.
  - rewrite (Z.min_l c) by lia.
    destruct (Z.le_gt_cases (c + n) (Z.of_nat (length l))) as [Hin|Hout].
    + rewrite Z.min_l by lia. f_equal. lia.
    + rewrite Z.min_r by lia. rewrite Nat2Z.id.
      rewrite !take_ge; [done| |]; rewrite length_drop; lia.
Qed.

Lemma take_take_drop_app {A} (l : list A) (n m : nat) :
  take n l ++ take m (drop n l) = take (n + m) l.
Proof.
  revert l; induction n as [|n IH]; intros [|x l]; simpl; try done.
  - by rewrite take_nil.
  - by rewrite IH.
Qed.

(** ** [File] *)

(** C8: [File.initialize] raises exactly when the configured path does not
    exist, the exception being [FileNotFoundError]; when the path exists
    it returns normally.  In both cases the environment and the instance
    (path and cursor) come back unchanged. *)
Theorem File_initialize_raises_iff_missing (env : Env) (self : File) :
  ((exists e, (File_initialize env self).1.1 = Raise e) <->
   files env !! _path_to_file self = None)
  /\ (files env !! _path_to_file self = None ->
      File_initialize env self = (Raise FileNotFoundError, env, self))
  /\ (is_Some (files env !! _path_to_file self) ->
      File_initialize env self = (Return (), env, self)).
Proof.
  unfold File_initialize.
  destruct (files env !! _path_to_file self) as [lines|] eqn:Hlookup; simpl.
  - repeat split.
    + intros [e He]. discriminate He.
    + discriminate.
    + discriminate.
  - repeat split.
    + by exists FileNotFoundError.
    + intros [lines Hsome]. discriminate Hsome.
Qed.

Lemma File_initialize_raises_iff_missing_witness :
  File_initialize replay_env (mkFile "seatalk_raw.hex" 0)
  = (Return (), replay_env, mkFile "seatalk_raw.hex" 0)
  /\ File_initialize replay_env (mkFile "missing.hex" 0)
     = (Raise FileNotFoundError, replay_env, mkFile "missing.hex" 0).
Proof.
  split.
  - apply (proj2 (proj2 (File_initialize_raises_iff_missing replay_env
                           (mkFile "seatalk_raw.hex" 0)))).
    by eexists.
  - apply (proj1 (proj2 (File_initialize_raises_iff_missing replay_env
                           (mkFile "missing.hex" 0)))).
    reflexivity.
Defined.

(** C9 (as amended): with the file present, the cursor at [c >= 0] and a
    read length [n >= 0], [File._read(n)] returns the bytes [c .. c+n) of
    the contents the file has at that call (fewer when the file ends
    first) and moves the cursor to [c + n]: the cursor never moves back,
    and it moves forward when [n >= 1].  The next read of [m] bytes looks
    the file up again and returns the bytes [c+n .. c+n+m) of what it
    then holds; the two slices of the same contents are adjacent, joined
    they are the bytes [c .. c+n+m). *)
Theorem File_read_advances_cursor (env : Env) (self : File) (lines : list byte)
  (n : Z) :
  files env !! _path_to_file self = Some lines ->
  0 <= _last_index self ->
  0 <= n ->
  let c := _last_index self in
  let self1 := mkFile (_path_to_file self) (c + n) in
  File_read n env self
    = (Return (take (Z.to_nat n) (drop (Z.to_nat c) lines)), env, self1)
  /\ c <= _last_index self1
  /\ (0 < n -> c < _last_index self1)
  /\ forall env1 lines1 m,
       files env1 !! _path_to_file self = Some lines1 ->
       0 <= m ->
       File_read m env1 self1
         = (Return (take (Z.to_nat m) (drop (Z.to_nat (c + n)) lines1)), env1,
            mkFile (_path_to_file self) (c + n + m))
       /\ take (Z.to_nat n) (drop (Z.to_nat c) lines1)
            ++ take (Z.to_nat m) (drop (Z.to_nat (c + n)) lines1)
          = take (Z.to_nat (n + m)) (drop (Z.to_nat c) lines1).
Proof.
  intros Hfile Hc Hn c self1. split; [|split; [|split]].
  - unfold File_read. rewrite Hfile. by rewrite py_slice_nonneg by lia.
  - simpl. lia.
  - simpl. lia.
  - intros env1 lines1 m Hfile1 Hm. split.
    + unfold File_read. simpl. rewrite Hfile1.
      by rewrite py_slice_nonneg by lia.
    + replace (Z.to_nat (c + n)) with (Z.to_nat c + Z.to_nat n)%nat by lia.
      rewrite <- drop_drop.
      replace (Z.to_nat (n + m)) with (Z.to_nat n + Z.to_nat m)%nat by lia.
      apply take_take_drop_app.
Qed.

Lemma File_read_advances_cursor_witness :
  files replay_env !! "seatalk_raw.hex"
    = Some [Byte.x00; Byte.x02; Byte.x00; Byte.xdb; Byte.x02]
  /\ 0 <= 0 /\ 0 <= 2
  /\ File_read 2 replay_env (mkFile "seatalk_raw.hex" 0)
     = (Return [Byte.x00; Byte.x02], replay_env, mkFile "seatalk_raw.hex" 2).
Proof.
  assert (Hfile : files replay_env !! "seatalk_raw.hex"
                  = Some [Byte.x00; Byte.x02; Byte.x00; Byte.xdb; Byte.x02])
    by reflexivity.
  split; [exact Hfile|]. split; [lia|]. split; [lia|].
  exact (proj1 (File_read_advances_cursor replay_env (mkFile "seatalk_raw.hex" 0)
                  _ 2 Hfile (Z.le_refl 0) (Z.lt_le_incl 0 2 eq_refl))).
Defined.

(** C9 as stated fails: a read of no bytes returns the empty slice and
    leaves the cursor where it was, so the cursor did not increase. *)
Lemma File_read_zero_keeps_cursor :
  File_read 0 replay_env (mkFile "seatalk_raw.hex" 3)
  = (Return [], replay_env, mkFile "seatalk_raw.hex" 3)
  /\ ~ (forall env self lines n,
          files env !! _path_to_file self = Some lines ->
          _last_index self < _last_index (File_read n env self).2).
Proof.
  assert (Hrun : File_read 0 replay_env (mkFile "seatalk_raw.hex" 3)
                 = (Return [], replay_env, mkFile "seatalk_raw.hex" 3))
    by reflexivity.
  split; [exact Hrun|].
  intros Hclaim.
  specialize (Hclaim replay_env (mkFile "seatalk_raw.hex" 3) _ 0 eq_refl).
  rewrite Hrun in Hclaim. simpl in Hclaim. lia.
Qed.

(** ** [IO.read] and [IO.write] with an encoding *)

(** C7: with an encoding configured and the lock free, a [read] whose
    bytes do not decode logs the error and returns the empty string, no
    exception leaving [read]; a [write] whose text does not encode logs
    the error and hands [_write] the empty [bytes] object, so whatever
    [write] then yields is what [_write] yields on that empty payload. *)
Theorem IO_charset_errors_are_absorbed {B} `{Backend B} (self : IO B)
  (enc : Codec) :
  _encoding self = Some enc ->
  _read_write_lock self = false ->
  (forall length env d env1 b1,
      _read length env (backend self) = (Return d, env1, b1) ->
      decode enc d = None ->
      read length env self
        = (Return (Str ""), emit (Log Error (CouldNotDecode d)) env1,
           mkIO (Some enc) false b1))
  /\ (forall s env,
        encode enc s = None ->
        write_encode (Str s) env self
          = (Return (Bytes []), emit (Log Error (CouldNotEncode s)) env)
        /\ write (Str s) env self
           = match _write (Bytes []) (emit (Log Error (CouldNotEncode s)) env)
                          (backend self) with
             | (Suspend, env2, b2) => (Suspend, env2, mkIO (Some enc) true b2)
             | (o, env2, b2) => (o, env2, mkIO (Some enc) false b2)
             end).
Proof.
  intros Henc Hlock. split.
  - intros length env d env1 b1 Hread Hdec.
    unfold read. by rewrite Hlock, Hread, Henc, Hdec.
  - intros s env Henc_fail.
    assert (Hfirst : write_encode (Str s) env self
                     = (Return (Bytes []), emit (Log Error (CouldNotEncode s)) env)).
    { unfold write_encode. by rewrite Henc, Henc_fail. }
    split; [exact Hfirst|].
    unfold write. by rewrite Hfirst, Hlock, Henc.
Qed.

Lemma IO_charset_errors_are_absorbed_witness :
  _encoding latin_io = Some ascii_codec
  /\ _read_write_lock latin_io = false
  /\ read 1 latin_env latin_io
     = (Return (Str ""), emit (Log Error (CouldNotDecode [Byte.xe9])) latin_env,
        mkIO (Some ascii_codec) false (mkFile "nmea.log" 1))
  /\ write_encode (Str (String "233"%char "")) latin_env latin_io
     = (Return (Bytes []),
        emit (Log Error (CouldNotEncode (String "233"%char ""))) latin_env).
Proof.
  split; [reflexivity|]. split; [reflexivity|].
  destruct (IO_charset_errors_are_absorbed latin_io ascii_codec eq_refl eq_refl)
    as [Hread Hwrite].
  split.
  - apply (Hread 1 latin_env [Byte.xe9] latin_env (mkFile "nmea.log" 1));
      reflexivity.
  - apply (Hwrite (String "233"%char "") latin_env). reflexivity.
Defined.

(** ** [TCP]: bounded queues *)

Lemma put_not_full {A} (x : A) (q : Queue A) :
  full q = false -> put x q = Some (mkQueue (maxsize q) (items q ++ [x])).
Proof. intros Hfull. unfold put. by rewrite Hfull. Qed.

Lemma not_full_room {A} (q : Queue A) :
  full q = false -> (0 < maxsize q)%nat -> (qsize q <= maxsize q)%nat ->
  (S (qsize q) <= maxsize q)%nat.
Proof.
  unfold full, qsize. intros Hfull Hpos Hle.
  apply andb_false_iff in Hfull as [Hzero|Hne].
  - apply negb_false_iff, Nat.eqb_eq in Hzero. lia.
  - apply Nat.eqb_neq in Hne. lia.
Qed.

Lemma TCP_write_returns (d : data) (env : Env) (self : TCP) :
  exists env1 self1, TCP_write d env self = (Return None, env1, self1).
Proof.
  unfold TCP_write. destruct (full (_write_queue self)) eqn:Hfull.
  - eauto.
  - rewrite put_not_full by done. eauto.
Qed.

Lemma TCP_write_bounds (d : data) (env : Env) (self : TCP) :
  within_bounds self -> within_bounds (TCP_write d env self).2.
Proof.
  intros (Hpos & Hr & Hw & Hrs & Hws). unfold TCP_write.
  destruct (full (_write_queue self)) eqn:Hfull; simpl.
  - by repeat split.
  - rewrite put_not_full by done. simpl.
    repeat split; try done.
    unfold qsize; simpl. rewrite length_app; simpl.
    pose proof (not_full_room (_write_queue self) Hfull) as Hroom.
    unfold qsize in *. lia.
Qed.

Lemma serve_block_bounds (b : list byte) (env : Env) (self : TCP) :
  within_bounds self -> within_bounds (serve_block b env self).2.
Proof.
  intros (Hpos & Hr & Hw & Hrs & Hws). unfold serve_block.
  destruct (full (_read_queue self)) eqn:Hfull; simpl.
  - by repeat split.
  - rewrite put_not_full by done. simpl.
    repeat split; try done.
    unfold qsize; simpl. rewrite length_app; simpl.
    pose proof (not_full_room (_read_queue self) Hfull) as Hroom.
    unfold qsize in *. lia.
Qed.

Lemma get_shrinks {A} (q q1 : Queue A) (x : A) :
  get q = Some (x, q1) ->
  maxsize q1 = maxsize q /\ (qsize q1 <= qsize q)%nat.
Proof.
  unfold get, qsize. destruct (items q) as [|y rest] eqn:Hitems; [done|].
  intros [= <- <-]. simpl. split; [done|lia].
Qed.

Lemma TCP_read_loop_bounds (n : nat) (acc : list byte) (env : Env) (self : TCP) :
  within_bounds self -> within_bounds (TCP_read_loop n acc env self).2.
Proof.
  revert acc self. induction n as [|n IH]; intros acc self Hb; [done|].
  simpl.
  destruct (_temp_read_block self) as [[|x blk]|] eqn:Htemp.
  - destruct (get (_read_queue self)) as [[blk q]|] eqn:Hget; [|done].
    apply IH. destruct Hb as (Hpos & Hr & Hw & Hrs & Hws).
    destruct (get_shrinks _ _ _ Hget) as [Hmax Hsize].
    unfold within_bounds; simpl. repeat split; try done; lia.
  - apply IH. destruct Hb as (Hpos & Hr & Hw & Hrs & Hws).
    by unfold within_bounds.
  - destruct (get (_read_queue self)) as [[blk q]|] eqn:Hget; [|done].
    apply IH. destruct Hb as (Hpos & Hr & Hw & Hrs & Hws).
    destruct (get_shrinks _ _ _ Hget) as [Hmax Hsize].
    unfold within_bounds; simpl. repeat split; try done; lia.
Qed.

Lemma run_op_bounds (o : tcp_op) (env : Env) (self : TCP) :
  within_bounds self -> within_bounds (run_op o env self).2.
Proof.
  intros Hb. destruct o as [d|b| |n]; simpl.
  - pose proof (TCP_write_bounds d env self Hb) as Hw.
    by destruct (TCP_write d env self) as [[o env1] self1].
  - pose proof (serve_block_bounds b env self Hb) as Hs.
    by destruct (serve_block b env self) as [[o env1] self1].
  - destruct (get (_write_queue self)) as [[x q]|] eqn:Hget; [|done].
    destruct Hb as (Hpos & Hr & Hw & Hrs & Hws).
    destruct (get_shrinks _ _ _ Hget) as [Hmax Hsize].
    unfold within_bounds; simpl. repeat split; try done; lia.
  - pose proof (TCP_read_loop_bounds (Z.to_nat n) [] env self Hb) as Hr.
    unfold TCP_read.
    by destruct (TCP_read_loop (Z.to_nat n) [] env self) as [[o env1] self1].
Qed.

Lemma run_ops_bounds (os : list tcp_op) (env : Env) (self : TCP) :
  within_bounds self -> within_bounds (run_ops os env self).2.
Proof.
  revert env self. induction os as [|o rest IH]; intros env self Hb; [done|].
  simpl. pose proof (run_op_bounds o env self Hb) as Hstep.
  destruct (run_op o env self) as [env1 self1]. by apply IH.
Qed.

Lemma run_ops_size (os : list tcp_op) (env : Env) (self : TCP) :
  _read_write_size (run_ops os env self).2 = _read_write_size self.
Proof.
  revert env self. induction os as [|o rest IH]; intros env self; [done|].
  simpl. destruct (run_op o env self) as [env1 self1] eqn:Hop.
  rewrite IH. clear IH.
  destruct o as [d|b| |n]; simpl in Hop.
  - unfold TCP_write in Hop.
    destruct (full (_write_queue self)); [by injection Hop as <- <-|].
    destruct (put d (_write_queue self)); by injection Hop as <- <-.
  - unfold serve_block in Hop.
    destruct (full (_read_queue self)); [by injection Hop as <- <-|].
    destruct (put b (_read_queue self)); by injection Hop as <- <-.
  - destruct (get (_write_queue self)) as [[x q]|]; by injection Hop as <- <-.
  - unfold TCP_read in Hop.
    assert (Hloop : forall k acc e s,
               _read_write_size (TCP_read_loop k acc e s).2 = _read_write_size s).
    { induction k as [|k IHk]; intros acc e s; [done|]. simpl.
      destruct (_temp_read_block s) as [[|y blk]|];
        try (destruct (get (_read_queue s)) as [[blk1 q]|]; [|done]);
        by rewrite IHk. }
    specialize (Hloop (Z.to_nat n) [] env self).
    destruct (TCP_read_loop (Z.to_nat n) [] env self) as [[o e1] s1].
    by injection Hop as <- <-.
Qed.

(** C4: [TCP._write] always returns: it never waits and never raises.
    With the write queue full it leaves the instance as it was and logs
    the warning (after the note on missing clients, if there are none);
    the same holds for [IO.write] on a [TCP] transport whose lock is free.
    With the read queue full, a block received in [_serve_client] is
    dropped with the warning and the receive loop goes on with the next
    block.  From a new instance, whatever writers, peers, the write task
    and readers do in whatever order, neither queue holds more than its
    bound of 1000 items. *)
Theorem TCP_full_queue_drops_and_stays_bounded :
  (forall d env self, exists env1 self1,
      TCP_write d env self = (Return None, env1, self1))
  /\ (forall d env self,
        full (_write_queue self) = true ->
        TCP_write d env self
        = (Return None,
           emit (Log Warn (WriteQueueFull (_address self) (_port self)))
                (match clients self with
                 | [] => emit (Log Info NoClientConnected) env
                 | _ => env
                 end),
           self))
  /\ (forall d env (io : IO TCP),
        _read_write_lock io = false ->
        _encoding io = None ->
        full (_write_queue (backend io)) = true ->
        exists env1, write d env io = (Return None, env1, io))
  /\ (forall data_block env self,
        full (_read_queue self) = true ->
        serve_block data_block env self
        = (Return (),
           emit (Log Warn (ReadQueueFull (_address self) (_port self))) env,
           self))
  /\ (forall b data_block rest env self,
        full (_read_queue self) = true ->
        serve_loop (Block (b :: data_block) :: rest) env self
        = serve_loop rest
            (emit (Log Warn (ReadQueueFull (_address self) (_port self))) env)
            self)
  /\ (forall os env port,
        let self1 := (run_ops os env (TCP_init port)).2 in
        (qsize (_read_queue self1) <= 1000)%nat
        /\ (qsize (_write_queue self1) <= 1000)%nat).
Proof.
  split; [exact TCP_write_returns|].
  split. { intros d env self Hfull. unfold TCP_write. by rewrite Hfull. }
  split.
  { intros d env io Hlock Henc Hfull.
    unfold write, write_encode. rewrite Henc, Hlock. simpl.
    unfold TCP_write. rewrite Hfull.
    destruct io as [enc lk b]. simpl in *. subst. eauto. }
  split. { intros b env self Hfull. unfold serve_block. by rewrite Hfull. }
  split.
  { intros b blk rest env self Hfull. simpl. unfold serve_block.
    by rewrite Hfull. }
  intros os env port self1.
  assert (Hinit : within_bounds (TCP_init port)).
  { unfold within_bounds, TCP_init, qsize; simpl. repeat split; lia. }
  pose proof (run_ops_bounds os env _ Hinit) as (_ & _ & _ & Hr & Hw).
  pose proof (run_ops_size os env (TCP_init port)) as Hsize.
  fold self1 in Hr, Hw, Hsize. rewrite Hsize in Hr, Hw. simpl in Hr, Hw.
  by split.
Qed.

Lemma TCP_full_queue_drops_and_stays_bounded_witness :
  TCP_write (Bytes [Byte.x0a]) (mkEnv [] ∅) full_tcp
  = (Return None,
     mkEnv [Log Info NoClientConnected; Log Warn (WriteQueueFull None 10110)] ∅,
     full_tcp)
  /\ serve_block [Byte.x0a] (mkEnv [] ∅) full_tcp
     = (Return (), mkEnv [Log Warn (ReadQueueFull None 10110)] ∅, full_tcp).
Proof.
  destruct TCP_full_queue_drops_and_stays_bounded
    as (_ & Hwrite & _ & Hblock & _).
  split.
  - apply (Hwrite (Bytes [Byte.x0a]) (mkEnv [] ∅) full_tcp). reflexivity.
  - apply (Hblock [Byte.x0a] (mkEnv [] ∅) full_tcp). reflexivity.
Defined.

(** ** [TCPClient._open_connection] *)

Lemma serve_loop_raises (script : list recv) (env env1 : Env) (self self1 : TCP)
  (e : exn) :
  serve_loop script env self = (Raise e, env1, self1) -> RecvRaises e ∈ script.
Proof.
  revert env self. induction script as [|r rest IH]; intros env self; simpl.
  - discriminate.
  - destruct r as [[|b blk]|e1].
    + discriminate.
    + destruct (serve_block (b :: blk) env self) as [[o env2] self2] eqn:Hblock.
      assert (Hret : o = Return ()).
      { unfold serve_block in Hblock.
        destruct (full (_read_queue self)) eqn:Hfull; [by injection Hblock|].
        rewrite put_not_full in Hblock by done. by injection Hblock. }
      subst o. intros Hrest. right. by eapply IH.
    + intros [= ->]. left.
Qed.

Lemma _serve_client_raises (client : nat) (a : address) (script : list recv)
  (env env1 : Env) (self self1 : TCP) (e : exn) :
  _serve_client client a script env self = (Raise e, env1, self1) ->
  RecvRaises e ∈ script.
Proof.
  unfold _serve_client.
  destruct (serve_loop script _ _) as [[o env3] self4] eqn:Hloop.
  destruct o as [[]|e1|]; intros Hres; try discriminate.
  injection Hres as -> _ _. by eapply serve_loop_raises.
Qed.

Lemma _open_connection_recoverable (script : list attempt) (env : Env)
  (self : TCPClient) :
  Forall recoverable script ->
  exists env1 self1, _open_connection script env self = (Suspend, env1, self1).
Proof.
  revert env self. induction script as [|a rest IH]; intros env self Hall.
  - simpl. eauto.
  - apply Forall_cons in Hall as [(Hsleep & Hconnect & Hsession) Hrest].
    simpl.
    destruct (connect a) as [client|e|] eqn:Hc.
    + destruct (_serve_client client _ (session a) _ (tcp self))
        as [[o env2] tcp2] eqn:Hserve.
      destruct o as [[]|e|].
      * by apply IH.
      * apply _serve_client_raises in Hserve.
        rewrite (Hsession e Hserve), Hsleep. by apply IH.
      * eauto.
    + rewrite (Hconnect e eq_refl), Hsleep. by apply IH.
    + eauto.
Qed.

Lemma _open_connection_exit (script : list attempt) (env env1 : Env)
  (self self1 : TCPClient) (e : exn) :
  _open_connection script env self = (Raise e, env1, self1) ->
  connection_class e = false.
Proof.
  revert env self. induction script as [|a rest IH]; intros env self; simpl.
  - discriminate.
  - destruct (match connect a with
              | Return client => _
              | Raise e0 => _
              | Suspend => _
              end) as [[o env2] tcp2].
    destruct o as [[]|e0|].
    + apply IH.
    + destruct (connection_class e0) eqn:Hclass.
      * destruct (backoff a); [apply IH|]. by intros [= <- _ _].
      * by intros [= <- _ _].
    + discriminate.
Qed.

(** C6 (as amended): a connection attempt, or a session, that fails with
    an exception of class [TimeoutError], [ConnectionError] or [OSError]
    is logged, followed by a sleep of one second and by the next
    attempt.  The loop is left only by an exception
    that is not of these classes, which is how a cancellation reaches it;
    while the network answers with failures of these classes and with
    sessions that end, the loop is still waiting for its next event.  When
    a connection succeeds after a failure, the client is registered, the
    write task is spawned, and the loop waits in the session for data. *)
Theorem reconnect_loop_retries_until_uncaught_exception (self : TCPClient) :
  (forall e sess rest env,
      connection_class e = true ->
      _open_connection (mkAttempt (Raise e) sess Slept :: rest) env self
      = _open_connection rest
          (emit (Sleep 1)
             (emit (Log Error (ConnectionErrorRepr e))
                (emit (Log Info (TryingToConnect (_ip self) (_port (tcp self))))
                      env)))
          self)
  /\ (forall client sess e env2 tcp2 rest env,
        _serve_client client (Some (_ip self, _port (tcp self))) sess
          (emit (Log Info (TryingToConnect (_ip self) (_port (tcp self)))) env)
          (tcp self)
        = (Raise e, env2, tcp2) ->
        connection_class e = true ->
        _open_connection (mkAttempt (Return client) sess Slept :: rest) env self
        = _open_connection rest
            (emit (Sleep 1) (emit (Log Error (ConnectionErrorRepr e)) env2))
            (mkTCPClient tcp2 (_ip self) (_serve_client_task self)))
  /\ (forall script env e env1 self1,
        _open_connection script env self = (Raise e, env1, self1) ->
        connection_class e = false)
  /\ (forall script env,
        Forall recoverable script ->
        exists env1 self1,
          _open_connection script env self = (Suspend, env1, self1))
  /\ (forall e client bk env,
        connection_class e = true ->
        let a := Some (_ip self, _port (tcp self)) in
        let trying := Log Info (TryingToConnect (_ip self) (_port (tcp self))) in
        exists env1,
          _open_connection
            [mkAttempt (Raise e) [] Slept; mkAttempt (Return client) [] bk]
            env self
          = (Suspend, env1,
             mkTCPClient
               (set_clients (clients (tcp self) ++ [client])
                  (set_write_task_handle true (set_address a (tcp self))))
               (_ip self) (_serve_client_task self))
          /\ events env1
             = events env
               ++ [trying; Log Error (ConnectionErrorRepr e); Sleep 1; trying;
                   Log Info (ClientConnected a); SpawnWriteTask]).
Proof.
  split.
  { intros e sess rest env Hclass. simpl. rewrite Hclass.
    by destruct self as [t ip task]. }
  split.
  { intros client sess e env2 tcp2 rest env Hserve Hclass. simpl.
    by rewrite Hserve, Hclass. }
  split. { intros script env e env1 self1. apply _open_connection_exit. }
  split. { intros script env. apply _open_connection_recoverable. }
  intros e client bk env Hclass a trying.
  eexists. split.
  - simpl. rewrite Hclass. simpl. reflexivity.
  - simpl. rewrite <- !app_assoc. reflexivity.
Qed.

Lemma reconnect_loop_retries_until_uncaught_exception_witness :
  exists env1,
    _open_connection
      [mkAttempt (Raise ConnectionError) [] Slept; mkAttempt (Return 7%nat) [] Slept]
      (mkEnv [] ∅) plotter
    = (Suspend, env1,
       mkTCPClient
         (set_clients [7%nat]
            (set_write_task_handle true
               (set_address (Some ("192.168.0.7", 10110)) (TCP_init 10110))))
         "192.168.0.7" false)
    /\ events env1
       = [ Log Info (TryingToConnect "192.168.0.7" 10110);
           Log Error (ConnectionErrorRepr ConnectionError); Sleep 1;
           Log Info (TryingToConnect "192.168.0.7" 10110);
           Log Info (ClientConnected (Some ("192.168.0.7", 10110)));
           SpawnWriteTask ].
Proof.
  destruct (reconnect_loop_retries_until_uncaught_exception plotter)
    as (_ & _ & _ & _ & Hserve).
  exact (Hserve ConnectionError 7%nat Slept (mkEnv [] ∅) eq_refl).
Defined.

(** C6 as stated fails: a host name that the IDNA codec refuses makes
    [curio.open_connection] raise [UnicodeError], which the [except]
    clause does not name; the loop ends with it, uncancelled. *)
Lemma reconnect_loop_exits_uncancelled :
  let self := mkTCPClient (TCP_init 10110) "gps..local" false in
  let script := [mkAttempt (Raise (OtherException "UnicodeError")) [] Slept] in
  _open_connection script (mkEnv [] ∅) self
  = (Raise (OtherException "UnicodeError"),
     mkEnv [Log Info (TryingToConnect "gps..local" 10110)] ∅, self)
  /\ OtherException "UnicodeError" <> TaskCancelled
  /\ ~ (forall script env self e env1 self1,
          _open_connection script env self = (Raise e, env1, self1) ->
          e = TaskCancelled).
Proof.
  intros self script.
  assert (Hrun : _open_connection script (mkEnv [] ∅) self
                 = (Raise (OtherException "UnicodeError"),
                    mkEnv [Log Info (TryingToConnect "gps..local" 10110)] ∅, self))
    by reflexivity.
  split; [exact Hrun|]. split; [discriminate|].
  intros Hclaim. specialize (Hclaim _ _ _ _ _ _ Hrun). discriminate Hclaim.
Qed.

(** ** [NMEADevice._read_task] *)

Section ReadTask.
Import NMEA.
Context `{NMEADatagram}.

Lemma append_assoc (s1 s2 s3 : string) :
  (s1 +:+ s2) +:+ s3 = s1 +:+ s2 +:+ s3.
Proof.
  induction s1 as [|c s1 IH]; [done|].
  change (String c ((s1 +:+ s2) +:+ s3) = String c (s1 +:+ s2 +:+ s3)).
  by rewrite IH.
Qed.

Lemma _receive_until_new_line_line (text : string) (rest : list (outcome data))
  (received : string) (env : Env) :
  no_newline text ->
  _receive_until_new_line (line_reads text ++ rest) received env
  = (Return (received +:+ text +:+ newline),
     emit (DeviceRaw (received +:+ text +:+ newline)) env, rest).
Proof.
  unfold no_newline, line_reads, chars.
  revert received. induction text as [|c text IH]; intros received Hno; simpl.
  - done.
  - apply Forall_cons in Hno as [Hc Hno].
    rewrite decide_False; last first.
    { unfold newline. intros [= ->]. by apply Hc. }
    rewrite IH by done. by rewrite !append_assoc.
Qed.

Lemma _receive_until_new_line_shrinks (reads rest : list (outcome data))
  (received data : string) (env env1 : Env) :
  _receive_until_new_line reads received env = (Return data, env1, rest) ->
  (length rest < length reads)%nat.
Proof.
  revert received. induction reads as [|r reads IH]; intros received; simpl.
  - discriminate.
  - destruct r as [[b|d]|e|].
    + intros [= _ _ <-]. lia.
    + destruct (decide (d = newline)).
      * intros [= _ _ <-]. lia.
      * intros Hrec. apply IH in Hrec. lia.
    + destruct e; try discriminate. intros [= _ _ <-]. lia.
    + discriminate.
Qed.

Lemma _read_task_rounds_fuel (f1 f2 : nat) (reads : list (outcome data))
  (env : Env) (self : NMEADevice) :
  (length reads < f1)%nat -> (length reads < f2)%nat ->
  _read_task_rounds f1 reads env self = _read_task_rounds f2 reads env self.
Proof.
  revert f2 reads env self.
  induction f1 as [|f1 IH]; intros f2 reads env self Hf1 Hf2; [lia|].
  destruct f2 as [|f2]; [lia|]. simpl.
  destruct (_receive_until_new_line reads "" env) as [[o env1] rest] eqn:Hrec.
  destruct o as [d|e|]; try done.
  apply _receive_until_new_line_shrinks in Hrec.
  destruct (_read_task_body d env1 self) as [[o2 env2] self2].
  destruct o2 as [[]|e|]; try done.
  apply IH; lia.
Qed.

Lemma _read_task_line (text : string) (rest : list (outcome data)) (env : Env)
  (self : NMEADevice) :
  no_newline text ->
  _read_task (line_reads text ++ rest) env self
  = match _read_task_body (text +:+ newline)
            (emit (DeviceRaw (text +:+ newline)) env) self with
    | (Return _, env2, self2) => _read_task rest env2 self2
    | (Raise e, env2, self2) => (Raise e, env2, self2)
    | (Suspend, env2, self2) => (Suspend, env2, self2)
    end.
Proof.
  intros Hno. unfold _read_task at 1. simpl _read_task_rounds.
  rewrite _receive_until_new_line_line by done. simpl.
  destruct (_read_task_body _ _ self) as [[o env2] self2].
  destruct o as [[]|e|]; try done.
  apply _read_task_rounds_fuel; [|lia].
  rewrite length_app. unfold line_reads. rewrite length_app. simpl. lia.
Qed.

Lemma _read_task_body_verified (data : string) (env : Env) (self : NMEADevice) :
  verify_checksum data = None ->
  parse_nmea_sentence data = None
  \/ parse_nmea_sentence data = Some UnknownNMEATag ->
  _read_task_body data env self
  = (Return (), emit (DeviceLog Info data) env,
     mkNMEADevice (_read_queue self ++ [data; data])).
Proof.
  intros Hv Hp. unfold _read_task_body, verified. rewrite Hv.
  destruct Hp as [-> | ->]; simpl; unfold queue_put; simpl;
    by rewrite <- app_assoc.
Qed.

(** C3: a line on which [verify_checksum] returns and on which
    [parse_nmea_sentence] returns or raises [UnknownNMEATag] is put into
    the read queue by the [put] inside the [try] and again by the [put]
    after it, so the queue grows by that line twice.  Run on the reads of
    a sequence of such lines, the task leaves each of them twice in a row
    in the queue, in the order received, and waits for the next read. *)
Theorem verified_line_is_queued_twice :
  (forall data env self,
      verify_checksum data = None ->
      parse_nmea_sentence data = None
      \/ parse_nmea_sentence data = Some UnknownNMEATag ->
      _read_task_body data env self
      = (Return (), emit (DeviceLog Info data) env,
         mkNMEADevice (_read_queue self ++ [data; data])))
  /\ (forall texts env self,
        Forall no_newline texts ->
        Forall (fun t => verify_checksum (t +:+ newline) = None
                         /\ (parse_nmea_sentence (t +:+ newline) = None
                             \/ parse_nmea_sentence (t +:+ newline)
                                = Some UnknownNMEATag)) texts ->
        exists env1,
          _read_task (concat (map line_reads texts)) env self
          = (Suspend, env1,
             mkNMEADevice
               (_read_queue self
                ++ concat (map (fun t => [t +:+ newline; t +:+ newline]) texts)))).
Proof.
  split; [exact _read_task_body_verified|].
  intros texts. induction texts as [|t texts IH]; intros env self Hno Hok.
  - exists env. simpl. rewrite app_nil_r. by destruct self.
  - apply Forall_cons in Hno as [Hno_t Hno].
    apply Forall_cons in Hok as [[Hv Hp] Hok].
    simpl. rewrite _read_task_line by done.
    rewrite _read_task_body_verified by done.
    destruct (IH (emit (DeviceLog Info (t +:+ newline))
                    (emit (DeviceRaw (t +:+ newline)) env))
                 (mkNMEADevice (_read_queue self ++ [t +:+ newline; t +:+ newline]))
                 Hno Hok) as [env1 Hrun].
    exists env1. rewrite Hrun. simpl. by rewrite <- app_assoc.
Qed.


End ReadTask.

Ltac no_newline_chars :=
  unfold NMEA.no_newline; simpl;
  repeat (constructor; [discriminate|]); constructor.

Lemma verified_line_is_queued_twice_witness :
  let reads := NMEA.line_reads "$GPGGA" ++ NMEA.line_reads "$XXABC" in
  exists env1,
    NMEA._read_task (H := NMEA.sample_datagram) reads (mkEnv [] ∅)
                    (NMEA.mkNMEADevice [])
    = (Suspend, env1,
       NMEA.mkNMEADevice
         [ "$GPGGA" +:+ NMEA.newline; "$GPGGA" +:+ NMEA.newline;
           "$XXABC" +:+ NMEA.newline; "$XXABC" +:+ NMEA.newline ]).
Proof.
  intros reads.
  destruct (proj2 (verified_line_is_queued_twice (H := NMEA.sample_datagram))
              ["$GPGGA"; "$XXABC"] (mkEnv [] ∅) (NMEA.mkNMEADevice []))
    as [env1 Hrun].
  - repeat (constructor; [no_newline_chars|]). constructor.
  - repeat (constructor;
            [split; [reflexivity|first [left; reflexivity|right; reflexivity]]|]).
    constructor.
  - exists env1. exact Hrun.
Defined.


(** ** The binary frame codec *)

Section Codec.
Import Seatalk.

Variable checksum : list byte -> byte.
Variable table : gmap byte entry.

Lemma device_loop_published (frames : list (list byte)) (published : list Datagram)
  (failed : list decode_error) :
  (device_loop checksum table frames published failed).1
  = published ++ (device_loop checksum table frames [] []).1.
Proof.
  revert published failed.
  induction frames as [|f rest IH]; intros published failed; simpl.
  - by rewrite app_nil_r.
  - destruct (decode_frame checksum table f) as [err|d].
    + rewrite (IH published (failed ++ [err])). by rewrite (IH [] [err]).
    + rewrite (IH (published ++ [d]) failed), (IH [d] []).
      by rewrite <- app_assoc.
Qed.

Lemma device_loop_app (pre post : list (list byte)) :
  (device_loop checksum table (pre ++ post) [] []).1
  = (device_loop checksum table pre [] []).1
    ++ (device_loop checksum table post [] []).1.
Proof.
  assert (Hgen : forall published failed,
             (device_loop checksum table (pre ++ post) published failed).1
             = (device_loop checksum table pre published failed).1
               ++ (device_loop checksum table post [] []).1).
  { induction pre as [|f rest IH]; intros published failed; simpl.
    - apply device_loop_published.
    - destruct (decode_frame checksum table f); apply IH. }
  apply Hgen.
Qed.

(** C2: for a command with a table entry, a candidate frame one byte
    shorter than the length the entry derives from the length-encoding
    byte fails with [InsufficientData], and one a byte longer fails with
    [ExcessData]; a frame whose command byte has no entry fails with
    [UnrecognizedCommand].  The failure belongs to that attempt alone: the
    read loop publishes from the frames before and after a failing frame
    exactly what it publishes when that frame is left out. *)
Theorem frame_boundary_and_unknown_command_errors :
  (forall cmd e len body,
      table !! cmd = Some e ->
      (length (cmd :: len :: body) + 1 = length_rule e len + 3)%nat ->
      decode_frame checksum table (cmd :: len :: body) = inl InsufficientData)
  /\ (forall cmd e len body,
        table !! cmd = Some e ->
        (length (cmd :: len :: body) = length_rule e len + 3 + 1)%nat ->
        decode_frame checksum table (cmd :: len :: body) = inl ExcessData)
  /\ (forall cmd rest,
        table !! cmd = None ->
        decode_frame checksum table (cmd :: rest) = inl UnrecognizedCommand)
  /\ (forall pre bad post err,
        decode_frame checksum table bad = inl err ->
        (device_loop checksum table (pre ++ bad :: post) [] []).1
        = (device_loop checksum table (pre ++ post) [] []).1).
Proof.
  split; [|split; [|split]].
  - intros cmd e len body He Hlen. simpl in *. rewrite He.
    destruct (Nat.ltb_spec (length body) (S (length_rule e len))); [done|lia].
  - intros cmd e len body He Hlen. simpl in *. rewrite He.
    destruct (Nat.ltb_spec (length body) (S (length_rule e len))); [lia|].
    destruct (Nat.ltb_spec (S (length_rule e len)) (length body)); [done|lia].
  - intros cmd rest Hnone. simpl. by rewrite Hnone.
  - intros pre bad post err Hbad.
    rewrite !device_loop_app. f_equal. simpl. rewrite Hbad.
    by rewrite device_loop_published.
Qed.

End Codec.

(** The three failing frames of [tests/test_seatalk.py]. *)
Lemma frame_boundary_and_unknown_command_errors_witness :
  Seatalk.decode_frame Seatalk.xor_checksum Seatalk.test_table
    [Byte.x00; Byte.x01; Byte.x00; Byte.x00]
  = inl Seatalk.InsufficientData
  /\ Seatalk.decode_frame Seatalk.xor_checksum Seatalk.test_table
       [Byte.x00; Byte.x03; Byte.x00; Byte.x00; Byte.x00; Byte.x00]
     = inl Seatalk.ExcessData
  /\ Seatalk.decode_frame Seatalk.xor_checksum Seatalk.test_table
       [Byte.xff; Byte.x03; Byte.x00; Byte.x00; Byte.x00; Byte.x00]
     = inl Seatalk.UnrecognizedCommand.
Proof.
  destruct (frame_boundary_and_unknown_command_errors Seatalk.xor_checksum
              Seatalk.test_table) as (Hshort & Hlong & Hunknown & _).
  split; [|split].
  - apply (Hshort Byte.x00 (Seatalk.raw_entry 2)); reflexivity.
  - apply (Hlong Byte.x00 (Seatalk.raw_entry 2)); reflexivity.
  - apply Hunknown. reflexivity.
Defined.

(** ** The read-write lock *)

Section LockDiscipline.
Import Exclusion.

Lemma bracketed_prog_of (o : op) (p : list instr) :
  bracketed false (prog_of o ++ p) = bracketed false p.
Proof. by destruct o. Qed.

Lemma bracketed_compile (ops : list op) : bracketed false (compile ops) = true.
Proof.
  unfold compile. induction ops as [|o ops IH]; [done|].
  simpl. by rewrite bracketed_prog_of.
Qed.

Lemma bracketed_locked (held : bool) (p : list instr) :
  bracketed held p = true -> locked p = held.
Proof. destruct p as [|[] p], held; simpl; done. Qed.

Lemma lock_invariant_initial (calls : list (list op)) : lock_invariant (initial calls).
Proof.
  intros t p. unfold initial. simpl. rewrite list_lookup_fmap.
  destruct (calls !! t) as [ops|]; simpl; [|done].
  intros [= <-]. apply bracketed_compile.
Qed.

Lemma lock_invariant_step (s s1 : state) :
  lock_invariant s -> step s s1 -> lock_invariant s1.
Proof.
  intros Hinv Hstep t1 p1.
  destruct Hstep as [s t rest Ht Hfree|s t rest Ht|s t i rest Ht Hacq Hrel];
    simpl; intros Hlookup;
    pose proof (Hinv t _ Ht) as Hmine;
    apply list_lookup_insert_Some in Hlookup
      as [(<- & <- & _)|[Hne Hother]].
  - simpl in Hmine. apply andb_true_iff in Hmine as [_ Hrest].
    by rewrite bool_decide_eq_true_2.
  - specialize (Hinv t1 p1 Hother).
    rewrite bool_decide_eq_false_2 in Hinv by (rewrite Hfree; discriminate).
    by rewrite bool_decide_eq_false_2 by congruence.
  - simpl in Hmine. by apply andb_true_iff in Hmine as [_ Hrest].
  - specialize (Hinv t1 p1 Hother).
    simpl in Hmine. apply andb_true_iff in Hmine as [Hheld _].
    apply bool_decide_eq_true in Hheld.
    by rewrite bool_decide_eq_false_2 in Hinv by congruence.
  - destruct i; simpl in Hmine; try done;
      apply andb_true_iff in Hmine as [Hheld Hrest];
      [apply negb_true_iff in Hheld| | |apply negb_true_iff in Hheld];
      by rewrite Hheld.
  - by apply Hinv.
Qed.

Lemma lock_invariant_reachable (calls : list (list op)) (s : state) :
  reachable calls s -> lock_invariant s.
Proof.
  induction 1 as [|s s1 _ IH Hstep]; [apply lock_invariant_initial|].
  by eapply lock_invariant_step.
Qed.

(** C10: in every state that tasks calling [read] and [write] on one
    instance can reach, a task is between its [Acquire] and the end of its
    [Release] exactly when it holds the one lock of the instance; so two
    tasks are never there together, whether they read or write. *)
Theorem one_lock_excludes_reads_and_writes (calls : list (list op)) (s : state) :
  reachable calls s ->
  (forall t p, tasks s !! t = Some p -> (locked p = true <-> lock s = Some t))
  /\ (forall t1 t2 p1 p2,
        tasks s !! t1 = Some p1 -> tasks s !! t2 = Some p2 ->
        locked p1 = true -> locked p2 = true -> t1 = t2).
Proof.
  intros Hreach. pose proof (lock_invariant_reachable calls s Hreach) as Hinv.
  assert (Hiff : forall t p, tasks s !! t = Some p ->
                             (locked p = true <-> lock s = Some t)).
  { intros t p Ht. rewrite (bracketed_locked _ p (Hinv t p Ht)).
    apply bool_decide_eq_true. }
  split; [exact Hiff|].
  intros t1 t2 p1 p2 Ht1 Ht2 Hg1 Hg2.
  apply (Hiff t1 p1 Ht1) in Hg1. apply (Hiff t2 p2 Ht2) in Hg2. congruence.
Qed.

End LockDiscipline.

Lemma one_lock_excludes_reads_and_writes_witness :
  let calls := [[Exclusion.Read]; [Exclusion.Write]] in
  let s := Exclusion.mkState (Some 0%nat)
             [[Exclusion.BackendRead; Exclusion.Release; Exclusion.Decode];
              [Exclusion.Acquire; Exclusion.BackendWrite; Exclusion.Release]] in
  Exclusion.reachable calls s
  /\ forall t p, Exclusion.tasks s !! t = Some p ->
                 (Exclusion.locked p = true <-> Exclusion.lock s = Some t).
Proof.
  intros calls s.
  set (s1 := Exclusion.mkState None
               [Exclusion.read_prog; [Exclusion.Acquire; Exclusion.BackendWrite; Exclusion.Release]]).
  assert (Hfirst : Exclusion.reachable calls s1).
  { apply (Exclusion.reach_step calls (Exclusion.initial calls) s1);
      [apply Exclusion.reach_initial|].
    change s1 with
      (Exclusion.mkState (Exclusion.lock (Exclusion.initial calls))
         (<[1%nat := [Exclusion.Acquire; Exclusion.BackendWrite; Exclusion.Release]]>
            (Exclusion.tasks (Exclusion.initial calls)))).
    apply (Exclusion.step_inner (Exclusion.initial calls) 1%nat Exclusion.Encode);
      [reflexivity|discriminate|discriminate]. }
  assert (Hreach : Exclusion.reachable calls s).
  { apply (Exclusion.reach_step calls s1 s); [exact Hfirst|].
    change s with
      (Exclusion.mkState (Some 0%nat)
         (<[0%nat := [Exclusion.BackendRead; Exclusion.Release; Exclusion.Decode]]>
            (Exclusion.tasks s1))).
    apply Exclusion.step_acquire; reflexivity. }
  split; [exact Hreach|].
  exact (proj1 (one_lock_excludes_reads_and_writes calls s Hreach)).
Defined.

(** * Further properties of the code *)

(** ** [File]: sequences of reads, and writes read back *)

Lemma File_read_nonneg (env : Env) (self : File) (lines : list byte) (n : Z) :
  files env !! _path_to_file self = Some lines ->
  0 <= _last_index self -> 0 <= n ->
  File_read n env self
  = (Return (take (Z.to_nat n) (drop (Z.to_nat (_last_index self)) lines)), env,
     mkFile (_path_to_file self) (_last_index self + n)).
Proof.
  intros Hfile Hc Hn. unfold File_read. rewrite Hfile.
  by rewrite py_slice_nonneg by lia.
Qed.

(** X1: reads of lengths [ns], none negative, issued one after the other
    on a file that does not change, all return; their results joined in
    order are the bytes of the file from the first cursor on, as many as
    the lengths add up to (fewer when the file ends first), and the cursor
    ends that many positions further. *)
Theorem File_reads_reassemble (ns : list Z) (env : Env) (self : File)
  (lines : list byte) :
  files env !! _path_to_file self = Some lines ->
  0 <= _last_index self ->
  Forall (fun n => 0 <= n) ns ->
  exists rs,
    File_reads ns env self
    = (Return rs, mkFile (_path_to_file self) (_last_index self + foldr Z.add 0 ns))
    /\ length rs = length ns
    /\ concat rs
       = take (Z.to_nat (foldr Z.add 0 ns))
              (drop (Z.to_nat (_last_index self)) lines).
Proof.
  intros Hfile. revert self Hfile.
  induction ns as [|n ns IH]; intros self Hfile Hc Hns.
  - exists []. simpl. rewrite Z.add_0_r. by destruct self.
  - apply Forall_cons in Hns as [Hn Hns].
    assert (Hsum : 0 <= foldr Z.add 0 ns).
    { clear -Hns. induction Hns; simpl; lia. }
    simpl. rewrite (File_read_nonneg env self lines n) by done.
    destruct (IH (mkFile (_path_to_file self) (_last_index self + n)))
      as (rs & Hrun & Hlen & Hcat); [done|simpl; lia|done|].
    simpl in Hrun, Hcat. rewrite Hrun.
    eexists. split; [|split].
    + by rewrite Z.add_assoc.
    + simpl. by rewrite Hlen.
    + simpl. rewrite Hcat.
      replace (Z.to_nat (_last_index self + n))
        with (Z.to_nat (_last_index self) + Z.to_nat n)%nat by lia.
      rewrite <- drop_drop.
      replace (Z.to_nat (n + foldr Z.add 0 ns))
        with (Z.to_nat n + Z.to_nat (foldr Z.add 0%Z ns))%nat by lia.
      apply take_take_drop_app.
Qed.

Lemma File_reads_reassemble_witness :
  File_reads [2; 0; 1; 5] replay_env (mkFile "seatalk_raw.hex" 0)
  = (Return [[Byte.x00; Byte.x02]; []; [Byte.x00]; [Byte.xdb; Byte.x02]],
     mkFile "seatalk_raw.hex" 8).
Proof.
  destruct (File_reads_reassemble [2; 0; 1; 5] replay_env
              (mkFile "seatalk_raw.hex" 0)
              [Byte.x00; Byte.x02; Byte.x00; Byte.xdb; Byte.x02])
    as (rs & Hrun & _ & _).
  - reflexivity.
  - simpl. lia.
  - repeat constructor; lia.
  - reflexivity.
Defined.

Lemma File_write_appends (b : list byte) (env : Env) (self : File) :
  File_write (Bytes b) env self
  = (Return (Some (Z.of_nat (length b))),
     mkEnv (events env)
           (<[_path_to_file self :=
                default [] (files env !! _path_to_file self) ++ b]> (files env)),
     self).
Proof. done. Qed.

(** X2: writing bytes to a [File] leaves every other file alone and puts
    the bytes after what the file held (a missing file is created);
    [initialize] then succeeds, and an instance whose cursor stood at the
    old end of the file reads exactly those bytes back. *)
Theorem File_write_then_read (b : list byte) (env : Env) (self : File) :
  let old := default [] (files env !! _path_to_file self) in
  _last_index self = Z.of_nat (length old) ->
  exists env1,
    File_write (Bytes b) env self
    = (Return (Some (Z.of_nat (length b))), env1, self)
    /\ files env1 !! _path_to_file self = Some (old ++ b)
    /\ (forall p, p <> _path_to_file self -> files env1 !! p = files env !! p)
    /\ File_initialize env1 self = (Return (), env1, self)
    /\ File_read (Z.of_nat (length b)) env1 self
       = (Return b, env1,
          mkFile (_path_to_file self) (Z.of_nat (length old + length b))).
Proof.
  intros old Hcursor. eexists. split; [apply File_write_appends|].
  simpl. fold old.
  assert (Hnew : <[_path_to_file self := old ++ b]> (files env)
                 !! _path_to_file self = Some (old ++ b))
    by apply lookup_insert_eq.
  split; [exact Hnew|]. split; [|split].
  - intros p Hp. by rewrite lookup_insert_ne.
  - unfold File_initialize. simpl. by rewrite Hnew.
  - rewrite (File_read_nonneg _ self (old ++ b)); [|exact Hnew|lia|lia].
    rewrite Hcursor, !Nat2Z.id. rewrite drop_app_length.
    rewrite take_ge by lia. do 3 f_equal. lia.
Qed.

Lemma File_write_then_read_witness :
  _last_index (mkFile "seatalk_raw.hex" 5)
  = Z.of_nat (length (default [] (files replay_env !! "seatalk_raw.hex")))
  /\ exists env1,
       File_write (Bytes [Byte.x30; Byte.x00; Byte.x0c]) replay_env
                  (mkFile "seatalk_raw.hex" 5)
       = (Return (Some 3), env1, mkFile "seatalk_raw.hex" 5)
       /\ File_read 3 env1 (mkFile "seatalk_raw.hex" 5)
          = (Return [Byte.x30; Byte.x00; Byte.x0c], env1,
             mkFile "seatalk_raw.hex" 8).
Proof.
  split; [reflexivity|].
  destruct (File_write_then_read [Byte.x30; Byte.x00; Byte.x0c] replay_env
              (mkFile "seatalk_raw.hex" 5) eq_refl)
    as (env1 & Hwrite & _ & _ & _ & Hread).
  exists env1. split; [exact Hwrite|exact Hread].
Defined.

(** X3: a read of [n >= 0] bytes with the cursor at the end of the file
    returns no bytes and still moves the cursor by [n]; of the bytes
    written to the file afterwards, the first [n] are never returned: the
    next read of [m >= 0] bytes starts behind them. *)
Theorem File_read_at_end_skips_appended (env : Env) (self : File)
  (lines b : list byte) (n m : Z) :
  files env !! _path_to_file self = Some lines ->
  _last_index self = Z.of_nat (length lines) ->
  0 <= n -> 0 <= m ->
  let self1 := mkFile (_path_to_file self) (_last_index self + n) in
  File_read n env self = (Return [], env, self1)
  /\ exists env1,
       File_write (Bytes b) env self1
       = (Return (Some (Z.of_nat (length b))), env1, self1)
       /\ File_read m env1 self1
          = (Return (take (Z.to_nat m) (drop (Z.to_nat n) b)), env1,
             mkFile (_path_to_file self) (_last_index self + n + m)).
Proof.
  intros Hfile Hcursor Hn Hm self1. subst self1. split.
  - rewrite (File_read_nonneg env self lines n) by (done || lia).
    rewrite Hcursor, Nat2Z.id, drop_all. by rewrite take_nil.
  - eexists. split; [apply File_write_appends|].
    simpl. rewrite Hfile. simpl.
    rewrite (File_read_nonneg _ _ (lines ++ b));
      [|apply lookup_insert_eq|simpl; lia|done].
    simpl. rewrite Hcursor.
    replace (Z.to_nat (Z.of_nat (length lines) + n))
      with (length lines + Z.to_nat n)%nat by lia.
    by rewrite drop_app_add.
Qed.

Lemma File_read_at_end_skips_appended_witness :
  exists env1,
    File_read 2 replay_env (mkFile "seatalk_raw.hex" 5)
    = (Return [], replay_env, mkFile "seatalk_raw.hex" 7)
    /\ File_write (Bytes [Byte.x30; Byte.x00; Byte.x0c]) replay_env
                  (mkFile "seatalk_raw.hex" 7)
       = (Return (Some 3), env1, mkFile "seatalk_raw.hex" 7)
    /\ File_read 3 env1 (mkFile "seatalk_raw.hex" 7)
       = (Return [Byte.x0c], env1, mkFile "seatalk_raw.hex" 10).
Proof.
  destruct (File_read_at_end_skips_appended replay_env
              (mkFile "seatalk_raw.hex" 5)
              [Byte.x00; Byte.x02; Byte.x00; Byte.xdb; Byte.x02]
              [Byte.x30; Byte.x00; Byte.x0c] 2 3)
    as (Hread & env1 & Hwrite & Hnext); [reflexivity|reflexivity|lia|lia|].
  exists env1. split; [exact Hread|]. split; [exact Hwrite|exact Hnext].
Defined.

(** ** [TCP]: the byte stream between peers and readers *)

Lemma TCP_read_loop_enough (n : nat) (acc : list byte) (env : Env) (self : TCP) :
  Forall (fun b => b <> []) (items (_read_queue self)) ->
  (n <= length (buffered self))%nat ->
  exists self1,
    TCP_read_loop n acc env self
    = (Return (acc ++ take n (buffered self)), env, self1)
    /\ buffered self1 = drop n (buffered self)
    /\ Forall (fun b => b <> []) (items (_read_queue self1))
    /\ _write_queue self1 = _write_queue self
    /\ clients self1 = clients self.
Proof.
  revert acc self. induction n as [|n IH]; intros acc self Hne Hlen.
  - exists self. simpl. rewrite take_0, app_nil_r. by rewrite drop_0.
  - destruct self as [cl port addr handle size [rmax ritems] temp wq].
    unfold buffered in *. simpl in *.
    assert (Hgo : forall x blk rest,
               Forall (fun b : list byte => b <> []) rest ->
               (n <= length (blk ++ concat rest))%nat ->
               exists self1,
                 TCP_read_loop n (acc ++ [x]) env
                   (mkTCP cl port addr handle size (mkQueue rmax rest)
                          (Some blk) wq)
                 = (Return (acc ++ x :: take n (blk ++ concat rest)), env, self1)
                 /\ default [] (_temp_read_block self1)
                      ++ concat (items (_read_queue self1))
                    = drop n (blk ++ concat rest)
                 /\ Forall (fun b => b <> []) (items (_read_queue self1))
                 /\ _write_queue self1 = wq
                 /\ clients self1 = cl).
    { intros x blk rest Hrest Hn.
      destruct (IH (acc ++ [x])
                  (mkTCP cl port addr handle size (mkQueue rmax rest) (Some blk) wq))
        as (self1 & Hrun & Hbuf & Hne1 & Hw & Hc); [done|done|].
      exists self1. simpl in *. rewrite Hrun, <- app_assoc. done. }
    destruct temp as [[|x blk]|]; simpl in *.
    + destruct ritems as [|[|x blk] rest]; simpl in *; [lia| |].
      * apply Forall_cons in Hne as [Hbad _]. done.
      * apply Forall_cons in Hne as [_ Hrest].
        apply (Hgo x blk rest); [done|lia].
    + apply (Hgo x blk ritems); [done|lia].
    + destruct ritems as [|[|x blk] rest]; simpl in *; [lia| |].
      * apply Forall_cons in Hne as [Hbad _]. done.
      * apply Forall_cons in Hne as [_ Hrest].
        apply (Hgo x blk rest); [done|lia].
Qed.

Lemma TCP_read_loop_short (n : nat) (acc : list byte) (env : Env) (self : TCP) :
  Forall (fun b => b <> []) (items (_read_queue self)) ->
  (length (buffered self) < n)%nat ->
  exists self1, TCP_read_loop n acc env self = (Suspend, env, self1).
Proof.
  revert acc self. induction n as [|n IH]; intros acc self Hne Hlen; [lia|].
  destruct self as [cl port addr handle size [rmax ritems] temp wq].
  unfold buffered in *. simpl in *.
  destruct temp as [[|x blk]|]; simpl in *.
  - destruct ritems as [|[|x blk] rest]; simpl in *; [eauto| |].
    + apply Forall_cons in Hne as [Hbad _]. done.
    + apply Forall_cons in Hne as [_ Hrest]. apply IH; simpl; [done|rewrite ?drop_0; lia].
  - apply IH; simpl; [done|rewrite ?drop_0; lia].
  - destruct ritems as [|[|x blk] rest]; simpl in *; [eauto| |].
    + apply Forall_cons in Hne as [Hbad _]. done.
    + apply Forall_cons in Hne as [_ Hrest]. apply IH; simpl; [done|rewrite ?drop_0; lia].
Qed.

(** X4: with no empty block in the read queue, [TCP._read(n)] returns
    exactly when at least [n] bytes are buffered: it then returns the
    first [n] buffered bytes, across block boundaries, keeps the rest
    buffered in order for the next read and leaves clients and write
    queue alone; with fewer than [n] bytes buffered it waits in the
    queue's [get]. *)
Theorem TCP_read_takes_buffered_prefix (n : Z) (env : Env) (self : TCP) :
  Forall (fun b => b <> []) (items (_read_queue self)) ->
  (Z.to_nat n <= length (buffered self))%nat
  /\ (exists self1,
        TCP_read n env self
        = (Return (take (Z.to_nat n) (buffered self)), env, self1)
        /\ buffered self1 = drop (Z.to_nat n) (buffered self)
        /\ _write_queue self1 = _write_queue self
        /\ clients self1 = clients self)
  \/ (length (buffered self) < Z.to_nat n)%nat
     /\ exists self1, TCP_read n env self = (Suspend, env, self1).
Proof.
  intros Hne. unfold TCP_read.
  destruct (le_lt_dec (Z.to_nat n) (length (buffered self))) as [Hle|Hlt].
  - left. split; [done|].
    destruct (TCP_read_loop_enough (Z.to_nat n) [] env self Hne Hle)
      as (self1 & Hrun & Hbuf & _ & Hw & Hc).
    exists self1. by rewrite Hrun.
  - right. split; [done|]. by apply TCP_read_loop_short.
Qed.

Lemma TCP_read_takes_buffered_prefix_witness :
  Forall (fun b : list byte => b <> []) (items (_read_queue two_blocks))
  /\ (exists self1,
        TCP_read 3 (mkEnv [] ∅) two_blocks
        = (Return [Byte.x24; Byte.x47; Byte.x50], mkEnv [] ∅, self1)
        /\ buffered self1 = [Byte.x47])
  /\ exists self1, TCP_read 5 (mkEnv [] ∅) two_blocks = (Suspend, mkEnv [] ∅, self1).
Proof.
  assert (Hne : Forall (fun b : list byte => b <> [])
                       (items (_read_queue two_blocks)))
    by (repeat constructor; discriminate).
  split; [exact Hne|]. split.
  - destruct (TCP_read_takes_buffered_prefix 3 (mkEnv [] ∅) two_blocks Hne)
      as [(_ & self1 & Hrun & Hbuf & _)|(Hshort & _)].
    + exists self1. split; [exact Hrun|exact Hbuf].
    + exfalso. revert Hshort. unfold buffered. simpl. lia.
  - destruct (TCP_read_takes_buffered_prefix 5 (mkEnv [] ∅) two_blocks Hne)
      as [(Hlong & _)|(_ & self1 & Hrun)].
    + exfalso. revert Hlong. unfold buffered. simpl. lia.
    + exists self1. exact Hrun.
Defined.

Lemma take_take_app {A} (l k : list A) (n : nat) :
  take n (take n l ++ k) = take n (l ++ k).
Proof.
  destruct (le_lt_dec (length l) n) as [Hle|Hlt].
  - by rewrite (take_ge l) by lia.
  - rewrite !take_app_le by (rewrite ?length_take; lia).
    by rewrite take_take, Nat.min_id.
Qed.

Lemma TCP_write_queue (d : data) (env : Env) (self : TCP) :
  (0 < maxsize (_write_queue self))%nat ->
  (qsize (_write_queue self) <= maxsize (_write_queue self))%nat ->
  _write_queue (TCP_write d env self).2
  = mkQueue (maxsize (_write_queue self))
            (take (maxsize (_write_queue self)) (items (_write_queue self) ++ [d]))
  /\ _read_queue (TCP_write d env self).2 = _read_queue self.
Proof.
  unfold qsize, TCP_write, full. intros Hpos Hle.
  destruct (Nat.eqb_spec (maxsize (_write_queue self)) 0) as [?|_]; [lia|].
  destruct (Nat.eqb_spec (length (items (_write_queue self)))
              (maxsize (_write_queue self))) as [Heq|Hne]; simpl.
  - split; [|done]. rewrite take_app_le by lia. rewrite take_ge by lia.
    by destruct (_write_queue self).
  - unfold put, full.
    destruct (Nat.eqb_spec (maxsize (_write_queue self)) 0) as [?|_]; [lia|].
    destruct (Nat.eqb_spec (length (items (_write_queue self)))
                (maxsize (_write_queue self))) as [?|_]; [lia|].
    simpl. split; [|done].
    by rewrite take_ge by (rewrite length_app; simpl; lia).
Qed.

Lemma serve_block_queue (b : list byte) (env : Env) (self : TCP) :
  (0 < maxsize (_read_queue self))%nat ->
  (qsize (_read_queue self) <= maxsize (_read_queue self))%nat ->
  _read_queue (serve_block b env self).2
  = mkQueue (maxsize (_read_queue self))
            (take (maxsize (_read_queue self)) (items (_read_queue self) ++ [b]))
  /\ _write_queue (serve_block b env self).2 = _write_queue self.
Proof.
  unfold qsize, serve_block, full. intros Hpos Hle.
  destruct (Nat.eqb_spec (maxsize (_read_queue self)) 0) as [?|_]; [lia|].
  destruct (Nat.eqb_spec (length (items (_read_queue self)))
              (maxsize (_read_queue self))) as [Heq|Hne]; simpl.
  - split; [|done]. rewrite take_app_le by lia. rewrite take_ge by lia.
    by destruct (_read_queue self).
  - unfold put, full.
    destruct (Nat.eqb_spec (maxsize (_read_queue self)) 0) as [?|_]; [lia|].
    destruct (Nat.eqb_spec (length (items (_read_queue self)))
                (maxsize (_read_queue self))) as [?|_]; [lia|].
    simpl. split; [|done].
    by rewrite take_ge by (rewrite length_app; simpl; lia).
Qed.

Lemma run_writes_queue (ds : list data) (env : Env) (self : TCP) :
  (0 < maxsize (_write_queue self))%nat ->
  (qsize (_write_queue self) <= maxsize (_write_queue self))%nat ->
  _write_queue (run_ops (map OpWrite ds) env self).2
  = mkQueue (maxsize (_write_queue self))
            (take (maxsize (_write_queue self)) (items (_write_queue self) ++ ds))
  /\ _read_queue (run_ops (map OpWrite ds) env self).2 = _read_queue self.
Proof.
  revert env self. induction ds as [|d ds IH]; intros env self Hpos Hle.
  - simpl. rewrite app_nil_r, take_ge by done. by destruct (_write_queue self).
  - simpl. destruct (TCP_write_queue d env self Hpos Hle) as [Hq Hr].
    destruct (TCP_write d env self) as [[o env1] self1]. simpl in *.
    destruct (IH env1 self1) as [Hq1 Hr1].
    + by rewrite Hq.
    + rewrite Hq. unfold qsize. simpl. rewrite length_take. lia.
    + rewrite Hq1, Hr1, Hq, Hr. simpl. split; [|done].
      by rewrite take_take_app, <- app_assoc.
Qed.

Lemma run_receives_queue (bs : list (list byte)) (env : Env) (self : TCP) :
  (0 < maxsize (_read_queue self))%nat ->
  (qsize (_read_queue self) <= maxsize (_read_queue self))%nat ->
  _read_queue (run_ops (map OpReceive bs) env self).2
  = mkQueue (maxsize (_read_queue self))
            (take (maxsize (_read_queue self)) (items (_read_queue self) ++ bs))
  /\ _write_queue (run_ops (map OpReceive bs) env self).2 = _write_queue self.
Proof.
  revert env self. induction bs as [|b bs IH]; intros env self Hpos Hle.
  - simpl. rewrite app_nil_r, take_ge by done. by destruct (_read_queue self).
  - simpl. destruct (serve_block_queue b env self Hpos Hle) as [Hq Hw].
    destruct (serve_block b env self) as [[o env1] self1]. simpl in *.
    destruct (IH env1 self1) as [Hq1 Hw1].
    + by rewrite Hq.
    + rewrite Hq. unfold qsize. simpl. rewrite length_take. lia.
    + rewrite Hq1, Hw1, Hq, Hw. simpl. split; [|done].
      by rewrite take_take_app, <- app_assoc.
Qed.

(** X5: while the write task takes nothing out, the write queue of a new
    [TCP] instance keeps the first 1000 items written, in the order
    written, and none of the later ones; the read queue is not touched. *)
Theorem TCP_write_queue_keeps_oldest (ds : list data) (env : Env) (port : Z) :
  let self1 := (run_ops (map OpWrite ds) env (TCP_init port)).2 in
  items (_write_queue self1) = take 1000 ds
  /\ items (_read_queue self1) = [].
Proof.
  intros self1.
  destruct (run_writes_queue ds env (TCP_init port)) as [Hq Hr];
    [simpl; lia|unfold qsize; simpl; lia|].
  subst self1. by rewrite Hq, Hr.
Qed.

Lemma serve_loop_run_receives (bs : list (list byte)) (env : Env) (self : TCP) :
  Forall (fun b => b <> []) bs ->
  serve_loop (map Block bs) env self
  = (Suspend, (run_ops (map OpReceive bs) env self).1,
     (run_ops (map OpReceive bs) env self).2).
Proof.
  revert env self. induction bs as [|b bs IH]; intros env self Hne; [done|].
  apply Forall_cons in Hne as [Hb Hne]. destruct b as [|x b]; [done|].
  simpl.
  destruct (serve_block (x :: b) env self) as [[o env1] self1] eqn:Hblock.
  assert (Hret : o = Return ()).
  { unfold serve_block in Hblock.
    destruct (full (_read_queue self)) eqn:Hfull; [by injection Hblock|].
    rewrite put_not_full in Hblock by done. by injection Hblock. }
  subst o. by apply IH.
Qed.

(** X6: while no reader takes anything out, the receive loop of
    [_serve_client] on a new [TCP] instance queues the first 1000 of the
    non-empty blocks a peer sends, in the order received, drops every
    later one and goes on waiting for the next block; the write queue is
    not touched. *)
Theorem TCP_read_queue_keeps_oldest (bs : list (list byte)) (env : Env) (port : Z) :
  Forall (fun b => b <> []) bs ->
  exists env1 self1,
    serve_loop (map Block bs) env (TCP_init port) = (Suspend, env1, self1)
    /\ items (_read_queue self1) = take 1000 bs
    /\ items (_write_queue self1) = [].
Proof.
  intros Hne. rewrite serve_loop_run_receives by done.
  eexists _, _. split; [reflexivity|].
  destruct (run_receives_queue bs env (TCP_init port)) as [Hq Hw];
    [simpl; lia|unfold qsize; simpl; lia|].
  by rewrite Hq, Hw.
Qed.

Lemma TCP_read_queue_keeps_oldest_witness :
  exists env1 self1,
    serve_loop (map Block (replicate 1001 [Byte.x24])) (mkEnv [] ∅) (TCP_init 10110)
    = (Suspend, env1, self1)
    /\ items (_read_queue self1) = replicate 1000 [Byte.x24].
Proof.
  destruct (TCP_read_queue_keeps_oldest (replicate 1001 [Byte.x24]) (mkEnv [] ∅)
              10110) as (env1 & self1 & Hrun & Hq & _).
  - apply Forall_replicate. discriminate.
  - exists env1, self1. split; [exact Hrun|]. rewrite Hq.
    by rewrite take_replicate.
Defined.

Lemma serve_loop_queues_blocks (blocks : list (list byte)) (env : Env) (self : TCP) :
  Forall (fun b => b <> []) blocks ->
  (0 < maxsize (_read_queue self))%nat ->
  (qsize (_read_queue self) + length blocks <= maxsize (_read_queue self))%nat ->
  serve_loop (map Block blocks) env self
  = (Suspend, env,
     set_read_queue (mkQueue (maxsize (_read_queue self))
                             (items (_read_queue self) ++ blocks)) self).
Proof.
  revert self. induction blocks as [|b blocks IH]; intros self Hne Hpos Hroom.
  - simpl. rewrite app_nil_r. by destruct self as [? ? ? ? ? [? ?] ? ?].
  - apply Forall_cons in Hne as [Hb Hne]. simpl in Hroom.
    destruct b as [|x b]; [done|]. simpl.
    assert (Hfull : full (_read_queue self) = false).
    { unfold full, qsize in *. apply andb_false_iff. right.
      apply Nat.eqb_neq. lia. }
    unfold serve_block. rewrite Hfull, put_not_full by done.
    rewrite IH; [|done|done|unfold qsize in *; simpl; rewrite length_app; simpl; lia].
    simpl. by rewrite <- app_assoc.
Qed.

(** X7: the blocks a peer sends to a new [TCP] instance, none of them
    empty and at most 1000 of them, are all queued by [_serve_client]'s
    receive loop without a warning, and a [_read] of as many bytes as they
    hold returns their bytes joined in the order received, leaving nothing
    buffered. *)
Theorem TCP_received_blocks_are_read_in_order (blocks : list (list byte))
  (env : Env) (port : Z) :
  Forall (fun b => b <> []) blocks ->
  (length blocks <= 1000)%nat ->
  exists self1 self2,
    serve_loop (map Block blocks) env (TCP_init port) = (Suspend, env, self1)
    /\ items (_read_queue self1) = blocks
    /\ TCP_read (Z.of_nat (length (concat blocks))) env self1
       = (Return (concat blocks), env, self2)
    /\ buffered self2 = [].
Proof.
  intros Hne Hlen.
  rewrite (serve_loop_queues_blocks blocks env (TCP_init port));
    [|done|simpl; lia|unfold qsize; simpl; lia].
  simpl.
  set (self1 := set_read_queue (mkQueue 1000 blocks) (TCP_init port)).
  destruct (TCP_read_loop_enough (length (concat blocks)) [] env self1)
    as (self2 & Hrun & Hbuf & _); [done|done|].
  exists self1, self2. split; [done|]. split; [done|].
  unfold TCP_read. rewrite Nat2Z.id, Hrun, Hbuf.
  unfold buffered. simpl. by rewrite take_ge, drop_all by done.
Qed.

Lemma TCP_received_blocks_are_read_in_order_witness :
  exists self1 self2,
    serve_loop [Block [Byte.x24; Byte.x47]; Block [Byte.x50]] (mkEnv [] ∅)
               (TCP_init 10110)
    = (Suspend, mkEnv [] ∅, self1)
    /\ TCP_read 3 (mkEnv [] ∅) self1
       = (Return [Byte.x24; Byte.x47; Byte.x50], mkEnv [] ∅, self2).
Proof.
  destruct (TCP_received_blocks_are_read_in_order
              [[Byte.x24; Byte.x47]; [Byte.x50]] (mkEnv [] ∅) 10110)
    as (self1 & self2 & Hloop & _ & Hread & _).
  - repeat constructor; discriminate.
  - simpl. lia.
  - exists self1, self2. split; [exact Hloop|exact Hread].
Defined.

(** ** [TCP._serve_client]: what a finished session leaves behind *)

Lemma remove_first_app (x : nat) (l : list nat) :
  x ∉ l -> remove_first x (l ++ [x]) = l.
Proof.
  induction l as [|y l IH]; intros Hnot; simpl.
  - by rewrite decide_True.
  - apply not_elem_of_cons in Hnot as [Hne Hnot].
    rewrite decide_False by done. by rewrite IH.
Qed.

Lemma serve_loop_frame (script : list recv) (env env1 : Env) (self self1 : TCP)
  (o : outcome unit) :
  serve_loop script env self = (o, env1, self1) ->
  clients self1 = clients self
  /\ _address self1 = _address self
  /\ _write_queue self1 = _write_queue self
  /\ _temp_read_block self1 = _temp_read_block self
  /\ files env1 = files env
  /\ exists n,
       events env1
       = events env
         ++ replicate n (Log Warn (ReadQueueFull (_address self) (_port self))).
Proof.
  revert env self. induction script as [|r rest IH]; intros env self; simpl.
  - intros [= <- <- <-]. repeat split; try done. exists 0%nat. simpl.
    by rewrite app_nil_r.
  - destruct r as [[|b blk]|e].
    + intros [= <- <- <-]. repeat split; try done. exists 0%nat. simpl.
      by rewrite app_nil_r.
    + unfold serve_block.
      destruct (full (_read_queue self)) eqn:Hfull.
      * intros Hrest. apply IH in Hrest as (Hc & Ha & Hw & Ht & Hf & n & Hev).
        repeat split; try done. exists (S n). rewrite Hev. simpl.
        by rewrite <- app_assoc.
      * rewrite put_not_full by done. intros Hrest.
        apply IH in Hrest as (Hc & Ha & Hw & Ht & Hf & n & Hev).
        repeat split; try done. by exists n.
    + intros [= <- <- <-]. repeat split; try done. exists 0%nat. simpl.
      by rewrite app_nil_r.
Qed.

(** X8: when [_serve_client] ends, by a disconnect, by an exception or by
    the cancellation of its task, for a client that was not yet in the
    client list, the list is what it was before the session and the
    address is reset.  The log shows, in this order, the connection and
    the spawning of the write task, only read-queue warnings during the
    session, the closing of the client if and only if the session ended
    by an exception derived from [Exception] (a cancellation does not
    close it), the closing notice and the cancelling of the write task. *)
Theorem _serve_client_cleans_up (client : nat) (a : address) (script : list recv)
  (env env1 : Env) (self self1 : TCP) (o : outcome unit) :
  _serve_client client a script env self = (o, env1, self1) ->
  o <> Suspend ->
  client ∉ clients self ->
  clients self1 = clients self
  /\ _address self1 = None
  /\ exists n,
       events env1
       = events env
         ++ [Log Info (ClientConnected a); SpawnWriteTask]
         ++ replicate n (Log Warn (ReadQueueFull a (_port self)))
         ++ match o with
            | Raise e =>
                if derives_from_Exception e then [CloseClient client] else []
            | _ => []
            end
         ++ [Log Warn (ClientClosed a); CancelWriteTask].
Proof.
  unfold _serve_client. intros Hrun Hend Hfresh.
  destruct (serve_loop script _ _) as [[o1 env3] self4] eqn:Hloop.
  apply serve_loop_frame in Hloop as (Hc & Ha & _ & _ & _ & n & Hev).
  simpl in Hc, Ha, Hev.
  destruct o1 as [[]|e|]; injection Hrun as <- <- <-; try done; simpl.
  - rewrite Hc, remove_first_app by done. repeat split; try done.
    exists n. rewrite Hev. by rewrite <- !app_assoc.
  - rewrite Hc, remove_first_app by done. repeat split; try done.
    exists n. destruct (derives_from_Exception e); simpl; rewrite Hev;
      by rewrite <- !app_assoc.
Qed.

Lemma _serve_client_cleans_up_witness :
  _serve_client 7%nat (Some ("192.168.0.7", 10110))
    [Block [Byte.x24]; RecvRaises ConnectionError] (mkEnv [] ∅) (TCP_init 10110)
  = (Raise ConnectionError,
     mkEnv [ Log Info (ClientConnected (Some ("192.168.0.7", 10110)));
             SpawnWriteTask; CloseClient 7%nat;
             Log Warn (ClientClosed (Some ("192.168.0.7", 10110)));
             CancelWriteTask ] ∅,
     set_read_queue (mkQueue 1000 [[Byte.x24]])
       (set_write_task_handle true (TCP_init 10110)))
  /\ clients (set_read_queue (mkQueue 1000 [[Byte.x24]])
               (set_write_task_handle true (TCP_init 10110)))
     = clients (TCP_init 10110)
  /\ _serve_client 7%nat (Some ("192.168.0.7", 10110))
       [RecvRaises TaskCancelled] (mkEnv [] ∅) (TCP_init 10110)
     = (Raise TaskCancelled,
        mkEnv [ Log Info (ClientConnected (Some ("192.168.0.7", 10110)));
                SpawnWriteTask;
                Log Warn (ClientClosed (Some ("192.168.0.7", 10110)));
                CancelWriteTask ] ∅,
        set_write_task_handle true (TCP_init 10110)).
Proof.
  assert (Hrun : _serve_client 7%nat (Some ("192.168.0.7", 10110))
                   [Block [Byte.x24]; RecvRaises ConnectionError] (mkEnv [] ∅)
                   (TCP_init 10110)
                 = (Raise ConnectionError,
                    mkEnv [ Log Info (ClientConnected (Some ("192.168.0.7", 10110)));
                            SpawnWriteTask; CloseClient 7%nat;
                            Log Warn (ClientClosed (Some ("192.168.0.7", 10110)));
                            CancelWriteTask ] ∅,
                    set_read_queue (mkQueue 1000 [[Byte.x24]])
                      (set_write_task_handle true (TCP_init 10110))))
    by reflexivity.
  split; [exact Hrun|]. split; [|reflexivity].
  apply (_serve_client_cleans_up _ _ _ _ _ _ _ _ Hrun).
  - discriminate.
  - apply not_elem_of_nil.
Defined.

(** ** [IO] over [TCP]: a waiting read holds the lock *)

(** X9: on a [TCP] transport with the lock free and nothing buffered, a
    [read] of at least one byte is parked in the queue's [get] inside
    [_read] with the lock still held; a [write] issued while it is parked
    gets as far as encoding its data and then waits for the lock, so that
    nothing reaches the write queue until data arrives for the reader. *)
Theorem parked_read_makes_write_wait (io : IO TCP) (n : Z) (env : Env) :
  _read_write_lock io = false ->
  default [] (_temp_read_block (backend io)) = [] ->
  items (_read_queue (backend io)) = [] ->
  0 < n ->
  let parked := mkIO (_encoding io) true (backend io) in
  read n env io = (Suspend, env, parked)
  /\ forall d env1 d1 env2,
       write_encode d env1 parked = (Return d1, env2) ->
       write d env1 parked = (Suspend, env2, parked).
Proof.
  intros Hlock Htemp Hitems Hn parked. split.
  - unfold read. rewrite Hlock. simpl. unfold TCP_read.
    destruct (Z.to_nat n) as [|k] eqn:Hk; [lia|]. simpl.
    unfold get. rewrite Hitems.
    destruct (_temp_read_block (backend io)) as [[|x blk]|]; try done.
  - intros d env1 d1 env2 Henc. unfold write. by rewrite Henc.
Qed.

Lemma parked_read_makes_write_wait_witness :
  read 1 (mkEnv [] ∅) idle_io
  = (Suspend, mkEnv [] ∅, mkIO None true (TCP_init 10110))
  /\ write (Bytes [Byte.x24]) (mkEnv [] ∅) (mkIO None true (TCP_init 10110))
     = (Suspend, mkEnv [] ∅, mkIO None true (TCP_init 10110)).
Proof.
  destruct (parked_read_makes_write_wait idle_io 1 (mkEnv [] ∅))
    as [Hread Hwrite]; [reflexivity|reflexivity|reflexivity|lia|].
  split; [exact Hread|].
  apply (Hwrite (Bytes [Byte.x24]) (mkEnv [] ∅) (Bytes [Byte.x24]) (mkEnv [] ∅)).
  reflexivity.
Defined.

(** ** [TCP._write_task] *)

Lemma _write_task_rounds_drain (fuel : nat) (sent : list (nat * data)) (self : TCP) :
  (qsize (_write_queue self) < fuel)%nat ->
  _write_task_rounds fuel sent self
  = (Suspend,
     sent ++ flat_map (fun d => map (fun client => (client, d)) (clients self))
                      (items (_write_queue self)),
     set_write_queue (mkQueue (maxsize (_write_queue self)) []) self).
Proof.
  revert sent self. induction fuel as [|fuel IH]; intros sent self Hfuel; [lia|].
  destruct self as [cl port addr handle size rq temp [wmax witems]].
  unfold qsize in *. simpl in *. unfold get. simpl.
  destruct witems as [|d rest]; simpl.
  - by rewrite app_nil_r.
  - rewrite IH by (simpl in *; lia). simpl. by rewrite <- app_assoc.
Qed.

(** X10: started on a write queue holding [ds], the write task takes every
    item out and sends each, in queue order, to every client of the
    instance in list order, exactly once; it then waits on the empty
    queue.  With no client in the list the items are taken out and sent
    to nobody. *)
Theorem _write_task_broadcasts_in_order (self : TCP) :
  _write_task self
  = (Suspend,
     flat_map (fun d => map (fun client => (client, d)) (clients self))
              (items (_write_queue self)),
     set_write_queue (mkQueue (maxsize (_write_queue self)) []) self)
  /\ (clients self = [] -> (_write_task self).1.2 = []).
Proof.
  assert (Hrun : _write_task self
                 = (Suspend,
                    flat_map (fun d => map (fun client => (client, d)) (clients self))
                             (items (_write_queue self)),
                    set_write_queue (mkQueue (maxsize (_write_queue self)) []) self)).
  { unfold _write_task. by rewrite _write_task_rounds_drain by lia. }
  split; [exact Hrun|].
  intros Hnone. rewrite Hrun, Hnone. simpl. clear Hrun.
  induction (items (_write_queue self)) as [|d rest IH]; [done|]. exact IH.
Qed.

(** ** [NMEADevice]: how a line is gathered, and what ends the task *)

Section Lines.
Import NMEA.

Lemma _receive_until_new_line_chunks (chunks : list string)
  (rest : list (outcome data)) (received : string) (env : Env) :
  Forall (fun c => c <> newline) chunks ->
  _receive_until_new_line (map (fun c => Return (Str c)) chunks ++ rest)
                          received env
  = _receive_until_new_line rest (received +:+ foldr String.append "" chunks) env.
Proof.
  revert received. induction chunks as [|c chunks IH]; intros received Hno; simpl.
  - f_equal. clear. induction received as [|a s IHs]; [done|].
    change (String a s = String a (s +:+ "")). by rewrite <- IHs.
  - apply Forall_cons in Hno as [Hc Hno].
    rewrite decide_False by done. rewrite IH by done.
    by rewrite append_assoc.
Qed.

(** X11: [_receive_until_new_line] ends a line only at a read that is
    exactly the newline string.  Reads of any other strings, whatever
    their length and even with a newline character inside, are joined in
    order; the line returned is that text with the newline at its end, it
    is written to the raw log, and the reads after the newline are left
    for the next line. *)
Theorem _receive_until_new_line_joins_chunks (chunks : list string)
  (rest : list (outcome data)) (env : Env) :
  Forall (fun c => c <> newline) chunks ->
  let line := foldr String.append "" chunks +:+ newline in
  _receive_until_new_line
    (map (fun c => Return (Str c)) chunks ++ Return (Str newline) :: rest) "" env
  = (Return line, emit (DeviceRaw line) env, rest).
Proof.
  intros Hno line. rewrite _receive_until_new_line_chunks by done.
  simpl. done.
Qed.

Lemma _receive_until_new_line_joins_chunks_witness :
  _receive_until_new_line
    [Return (Str "$GP"); Return (Str ("GGA" +:+ newline +:+ "$"));
     Return (Str "GPRMC"); Return (Str newline); Return (Str "$")]
    "" (mkEnv [] ∅)
  = (Return ("$GPGGA" +:+ newline +:+ "$GPRMC" +:+ newline),
     mkEnv [DeviceRaw ("$GPGGA" +:+ newline +:+ "$GPRMC" +:+ newline)] ∅,
     [Return (Str "$")]).
Proof.
  apply (_receive_until_new_line_joins_chunks
           ["$GP"; "GGA" +:+ newline +:+ "$"; "GPRMC"] [Return (Str "$")]
           (mkEnv [] ∅)).
  repeat (constructor; [discriminate|]). constructor.
Defined.

(** X12: when a read hands over a [bytes] object, as a transport without
    encoding does, or raises [TypeError], the text gathered so far is
    logged as an error and given up: the function returns the empty
    string, and the reads that follow start a new line. *)
Theorem _receive_until_new_line_gives_up_on_bytes (chunks : list string)
  (bad : outcome data) (rest : list (outcome data)) (env : Env) :
  Forall (fun c => c <> newline) chunks ->
  (exists b, bad = Return (Bytes b)) \/ bad = Raise TypeError ->
  _receive_until_new_line (map (fun c => Return (Str c)) chunks ++ bad :: rest)
                          "" env
  = (Return "",
     emit (DeviceLog Error (foldr String.append "" chunks))
          (emit (Log Error (ErrorWhenReading TypeError)) env),
     rest).
Proof.
  intros Hno Hbad. rewrite _receive_until_new_line_chunks by done.
  destruct Hbad as [[b ->]| ->]; done.
Qed.

Lemma _receive_until_new_line_gives_up_on_bytes_witness :
  _receive_until_new_line
    [Return (Str "$GP"); Return (Bytes [Byte.x47]); Return (Str "$")] ""
    (mkEnv [] ∅)
  = (Return "",
     mkEnv [Log Error (ErrorWhenReading TypeError); DeviceLog Error "$GP"] ∅,
     [Return (Str "$")]).
Proof.
  apply (_receive_until_new_line_gives_up_on_bytes ["$GP"]
           (Return (Bytes [Byte.x47])) [Return (Str "$")] (mkEnv [] ∅)).
  - repeat (constructor; [discriminate|]). constructor.
  - left. by eexists.
Defined.

Context `{NMEADatagram}.

(** X13: an exception of [read] other than [TypeError] is not handled
    anywhere in the read task: it ends the task at once, whatever part of
    a line was gathered, with nothing logged and the queue as it was. *)
Theorem _read_task_ends_on_read_exception (chunks : list string) (e : exn)
  (rest : list (outcome data)) (env : Env) (self : NMEADevice) :
  Forall (fun c => c <> newline) chunks ->
  e <> TypeError ->
  _read_task (map (fun c => Return (Str c)) chunks ++ Raise e :: rest) env self
  = (Raise e, env, self).
Proof.
  intros Hno He. unfold _read_task. simpl _read_task_rounds.
  rewrite _receive_until_new_line_chunks by done. simpl.
  by destruct e.
Qed.

Lemma _read_task_body_queue (data : string) (env env1 : Env)
  (self self1 : NMEADevice) (o : outcome unit) :
  _read_task_body data env self = (o, env1, self1) ->
  _read_queue self1 = _read_queue self
  \/ _read_queue self1 = _read_queue self ++ [data; data].
Proof.
  unfold _read_task_body, verified.
  destruct (verify_checksum data) as [e|].
  - destruct (is_NMEAParseError e); intros [= _ _ <-]; by left.
  - destruct (parse_nmea_sentence data) as [e|].
    + destruct e; simpl;
        try (destruct (is_NMEAParseError _); intros [= _ _ <-]; by left);
        try (intros [= _ _ <-]; by left).
      intros [= _ _ <-]. right. simpl. by rewrite <- app_assoc.
    + intros [= _ _ <-]. right. simpl. by rewrite <- app_assoc.
Qed.

Lemma _read_task_rounds_doubled (fuel : nat) (reads : list (outcome data))
  (env : Env) (self : NMEADevice) :
  exists lines,
    _read_queue (_read_task_rounds fuel reads env self).2
    = _read_queue self ++ doubled lines.
Proof.
  revert reads env self. induction fuel as [|fuel IH]; intros reads env self.
  - exists []. simpl. by rewrite app_nil_r.
  - simpl.
    destruct (_receive_until_new_line reads "" env) as [[o env1] rest].
    destruct o as [d|e|]; try (exists []; simpl; by rewrite app_nil_r).
    destruct (_read_task_body d env1 self) as [[o2 env2] self2] eqn:Hbody.
    apply _read_task_body_queue in Hbody.
    destruct o2 as [[]|e|].
    + destruct (IH rest env2 self2) as [lines Hrest].
      destruct Hbody as [Hq|Hq]; rewrite Hrest, Hq.
      * by exists lines.
      * exists (d :: lines). unfold doubled. simpl. by rewrite <- app_assoc.
    + destruct Hbody as [Hq|Hq]; simpl; rewrite Hq.
      * exists []. by rewrite app_nil_r.
      * by exists [d].
    + destruct Hbody as [Hq|Hq]; simpl; rewrite Hq.
      * exists []. by rewrite app_nil_r.
      * by exists [d].
Qed.

(** X14: whatever the reads deliver and whatever the checksum test and
    the parser do with the lines, the read task never takes anything out
    of the read queue, and what it adds comes in pairs: the queue after
    the run is the queue before it followed by a sequence of lines, each
    of them twice in a row. *)
Theorem _read_task_queue_grows_by_pairs (reads : list (outcome data)) (env : Env)
  (self : NMEADevice) :
  exists lines,
    _read_queue (_read_task reads env self).2
    = _read_queue self ++ doubled lines.
Proof. apply _read_task_rounds_doubled. Qed.

End Lines.

Lemma _read_task_ends_on_read_exception_witness :
  NMEA._read_task (H := NMEA.sample_datagram)
    [Return (Str "$GP"); Raise FileNotFoundError; Return (Str NMEA.newline)]
    (mkEnv [] ∅) (NMEA.mkNMEADevice ["$GPRMC"])
  = (Raise FileNotFoundError, mkEnv [] ∅, NMEA.mkNMEADevice ["$GPRMC"]).
Proof.
  apply (_read_task_ends_on_read_exception (H := NMEA.sample_datagram) ["$GP"]
           FileNotFoundError [Return (Str NMEA.newline)]).
  - repeat (constructor; [discriminate|]). constructor.
  - discriminate.
Defined.

(** ** [Serial._get_parity_enum] *)

Lemma dict_get_elem (d : list (string * string)) (k v : string) :
  dict_get d k = Some v -> (k, v) ∈ d.
Proof.
  induction d as [|[k1 v1] rest IH]; simpl; [done|].
  destruct (decide (k1 = k)) as [->|Hne].
  - intros [= ->]. left.
  - intros Hrest. right. by apply IH.
Qed.

Lemma dict_get_unique (d : list (string * string)) (k v : string) :
  NoDup (d.*1) -> (k, v) ∈ d -> dict_get d k = Some v.
Proof.
  induction d as [|[k1 v1] rest IH]; simpl; intros Hnodup Hin.
  - by apply elem_of_nil in Hin.
  - apply NoDup_cons in Hnodup as [Hfresh Hnodup].
    apply elem_of_cons in Hin as [[= <- <-]|Hin].
    + by rewrite decide_True.
    + rewrite decide_False; [by apply IH|].
      intros ->. apply Hfresh. apply list_elem_of_fmap. by exists (k, v).
Qed.

Lemma parity_search_Some (d : list (string * string)) (keys : list string)
  (parity val : string) :
  parity_search d keys parity = Some val ->
  val ∈ keys /\ dict_get d val = Some parity.
Proof.
  induction keys as [|k keys IH]; simpl; [done|].
  destruct (decide (dict_get d k = Some parity)) as [Hk|Hk].
  - intros [= <-]. split; [left|done].
  - intros Hrest. apply IH in Hrest as [Hin Hget]. split; [by right|done].
Qed.

Lemma parity_search_None (d : list (string * string)) (keys : list string)
  (parity : string) :
  parity_search d keys parity = None ->
  forall val, val ∈ keys -> dict_get d val <> Some parity.
Proof.
  induction keys as [|k keys IH]; simpl; intros Hnone val Hin.
  - by apply elem_of_nil in Hin.
  - destruct (decide (dict_get d k = Some parity)) as [Hk|Hk]; [done|].
    apply elem_of_cons in Hin as [->|Hin]; [done|]. by apply IH.
Qed.

(** X15: over a table of distinct keys and distinct names, the name of a
    key, when it has more than one character, is turned into that key:
    [_get_parity_enum] inverts the table. *)
Theorem _get_parity_enum_inverts_names (d : list (string * string))
  (k name : string) :
  NoDup (d.*1) ->
  NoDup (d.*2) ->
  (k, name) ∈ d ->
  (1 < String.length name)%nat ->
  _get_parity_enum d (ParityStr name) = ParityStr k.
Proof.
  intros Hkeys Hnames Hin Hlen. unfold _get_parity_enum.
  destruct (Nat.ltb_spec 1 (String.length name)) as [_|?]; [|lia].
  destruct (parity_search d (d.*1) name) as [val|] eqn:Hsearch.
  - apply parity_search_Some in Hsearch as [_ Hget].
    apply dict_get_elem in Hget. f_equal.
    clear Hkeys. induction d as [|[k1 n1] rest IH]; [by apply elem_of_nil in Hin|].
    simpl in Hnames. apply NoDup_cons in Hnames as [Hfresh Hnames].
    apply elem_of_cons in Hin as [Hin|Hin];
      apply elem_of_cons in Hget as [Hget|Hget]; simplify_eq; try done.
    + exfalso. apply Hfresh. apply list_elem_of_fmap.
      eexists. split; [|eassumption]. done.
    + exfalso. apply Hfresh. apply list_elem_of_fmap.
      eexists. split; [|eassumption]. done.
    + by apply IH.
  - exfalso.
    apply (parity_search_None d (d.*1) name Hsearch k).
    + apply list_elem_of_fmap. by exists (k, name).
    + by apply dict_get_unique.
Qed.

Lemma _get_parity_enum_inverts_names_witness :
  _get_parity_enum pyserial_parity_names (ParityStr "Even") = ParityStr "E".
Proof.
  apply _get_parity_enum_inverts_names.
  - compute_done.
  - compute_done.
  - compute_done.
  - simpl. lia.
Defined.

(** X16: [_get_parity_enum] hands back unchanged whatever is not the name
    of a key: values that are no strings, strings of at most one
    character, and longer strings that the table does not hold as a name.
    Over a table whose keys have at most one character, applying it to
    its own result changes nothing. *)
Theorem _get_parity_enum_passes_through (d : list (string * string)) :
  (forall v, _get_parity_enum d (ParityOther v) = ParityOther v)
  /\ (forall s, (String.length s <= 1)%nat ->
                _get_parity_enum d (ParityStr s) = ParityStr s)
  /\ (forall s, s ∉ d.*2 -> _get_parity_enum d (ParityStr s) = ParityStr s)
  /\ (Forall (fun k => (String.length k <= 1)%nat) (d.*1) ->
      forall p, _get_parity_enum d (_get_parity_enum d p) = _get_parity_enum d p).
Proof.
  assert (Hshort : forall s, (String.length s <= 1)%nat ->
                             _get_parity_enum d (ParityStr s) = ParityStr s).
  { intros s Hs. unfold _get_parity_enum.
    by destruct (Nat.ltb_spec 1 (String.length s)) as [?|_]; [lia|]. }
  split; [done|]. split; [exact Hshort|]. split.
  - intros s Hs. unfold _get_parity_enum.
    destruct (1 <? String.length s)%nat; [|done].
    destruct (parity_search d (d.*1) s) as [val|] eqn:Hsearch; [|done].
    exfalso. apply Hs. apply parity_search_Some in Hsearch as [_ Hget].
    apply dict_get_elem in Hget. apply list_elem_of_fmap. by exists (val, s).
  - intros Hkeys [s|v]; [|done].
    destruct (_get_parity_enum d (ParityStr s)) as [r|v] eqn:Hres; [|done].
    unfold _get_parity_enum in Hres.
    destruct (1 <? String.length s)%nat eqn:Hlen.
    + destruct (parity_search d (d.*1) s) as [val|] eqn:Hsearch.
      * injection Hres as <-. apply Hshort.
        apply parity_search_Some in Hsearch as [Hin _].
        rewrite Forall_forall in Hkeys. by apply Hkeys.
      * injection Hres as <-. unfold _get_parity_enum. by rewrite Hlen, Hsearch.
    + injection Hres as <-. unfold _get_parity_enum. by rewrite Hlen.
Qed.

Lemma _get_parity_enum_passes_through_witness :
  _get_parity_enum pyserial_parity_names (ParityStr "N") = ParityStr "N"
  /\ _get_parity_enum pyserial_parity_names (ParityStr "none") = ParityStr "none"
  /\ _get_parity_enum pyserial_parity_names
       (_get_parity_enum pyserial_parity_names (ParityStr "Odd"))
     = _get_parity_enum pyserial_parity_names (ParityStr "Odd").
Proof.
  destruct (_get_parity_enum_passes_through pyserial_parity_names)
    as (_ & Hshort & Hunknown & Hidem).
  split; [|split].
  - apply Hshort. simpl. lia.
  - apply Hunknown. compute_done.
  - apply Hidem. simpl. repeat (constructor; [simpl; lia|]). constructor.
Defined.

(** ** [IO] over [File] with an encoding, and the byte source of the tests *)

(** X17: with an encoding under which the text [s] encodes to bytes that
    decode to [s] again, and the lock free, [write(s)] on a [File]
    transport appends those bytes and returns their number; a [read] of
    that many bytes by an instance whose cursor stood at the old end of
    the file returns [s] and leaves the lock free. *)
Theorem IO_File_text_round_trip (enc : Codec) (s : string) (b : list byte)
  (env : Env) (io : IO File) :
  _encoding io = Some enc ->
  _read_write_lock io = false ->
  encode enc s = Some b ->
  decode enc b = Some s ->
  _last_index (backend io)
  = Z.of_nat (length (default [] (files env !! _path_to_file (backend io)))) ->
  exists env1,
    write (Str s) env io = (Return (Some (Z.of_nat (length b))), env1, io)
    /\ read (Z.of_nat (length b)) env1 io
       = (Return (Str s), env1,
          mkIO (Some enc) false
               (mkFile (_path_to_file (backend io))
                       (_last_index (backend io) + Z.of_nat (length b)))).
Proof.
  intros Henc Hlock Hencode Hdecode Hcursor.
  destruct (File_write_then_read b env (backend io) Hcursor)
    as (env1 & Hwrite & _ & _ & _ & Hread).
  exists env1. split.
  - unfold write, write_encode. rewrite Henc, Hencode, Hlock.
    change (_write (Bytes b) env (backend io))
      with (File_write (Bytes b) env (backend io)).
    rewrite Hwrite. destruct io as [e l f]. simpl in *. by subst.
  - unfold read. rewrite Hlock.
    change (_read (Z.of_nat (length b)) env1 (backend io))
      with (File_read (Z.of_nat (length b)) env1 (backend io)).
    rewrite Hread, Henc, Hdecode. do 3 f_equal. rewrite Hcursor. lia.
Qed.

Lemma IO_File_text_round_trip_witness :
  exists env1,
    write (Str "$GPGGA") (mkEnv [] ∅) (mkIO (Some ascii_codec) false (mkFile "out.log" 0))
    = (Return (Some 6), env1, mkIO (Some ascii_codec) false (mkFile "out.log" 0))
    /\ read 6 env1 (mkIO (Some ascii_codec) false (mkFile "out.log" 0))
       = (Return (Str "$GPGGA"), env1,
          mkIO (Some ascii_codec) false (mkFile "out.log" 6)).
Proof.
  destruct (IO_File_text_round_trip ascii_codec "$GPGGA"
              (String.list_byte_of_string "$GPGGA") (mkEnv [] ∅)
              (mkIO (Some ascii_codec) false (mkFile "out.log" 0)))
    as (env1 & Hwrite & Hread); try reflexivity.
  exists env1. split; [exact Hwrite|exact Hread].
Defined.

Lemma slice_bound_nonneg {A} (l : list A) (n : Z) :
  0 <= n -> slice_bound l n = Nat.min (Z.to_nat n) (length l).
Proof.
  intros Hn. unfold slice_bound.
  destruct (Z.ltb_spec n 0) as [?|_]; lia.
Qed.

(** X18: a read of the test receiver, whatever length is asked for, hands
    out a front part of its bytes and keeps the rest, so that the bytes
    handed out followed by the bytes kept are the bytes it had.  Two reads
    of [n >= 0] and [m >= 0] bytes hand out between them the first
    [n + m] bytes, in order and without overlap, and keep what follows. *)
Theorem TestValueReceiver_reads_partition (env : Env) (self : TestValueReceiver) :
  (forall n, exists r self1,
      read n env (mkIO None false self)
      = (Return (Bytes r), env, mkIO None false self1)
      /\ r ++ bytes self1 = bytes self)
  /\ (forall n m, 0 <= n -> 0 <= m ->
      exists r1 r2 self1 self2,
        read n env (mkIO None false self)
        = (Return (Bytes r1), env, mkIO None false self1)
        /\ read m env (mkIO None false self1)
           = (Return (Bytes r2), env, mkIO None false self2)
        /\ r1 ++ r2 = take (Z.to_nat (n + m)) (bytes self)
        /\ bytes self2 = drop (Z.to_nat (n + m)) (bytes self)).
Proof.
  split.
  - intros n. eexists _, _. split; [reflexivity|]. simpl. apply take_drop.
  - intros n m Hn Hm. eexists _, _, _, _. split; [reflexivity|].
    split; [reflexivity|]. simpl.
    rewrite !slice_bound_nonneg by done. rewrite length_drop.
    set (l := bytes self).
    set (a := Nat.min (Z.to_nat n) (length l)).
    set (c := Nat.min (Z.to_nat m) (length l - a)).
    assert (Hsum : (a + c = Nat.min (Z.to_nat (n + m)) (length l))%nat)
      by (subst a c; lia).
    assert (Htake : forall k, take (Nat.min k (length l)) l = take k l).
    { intros k. destruct (le_lt_dec k (length l)).
      - by rewrite Nat.min_l by lia.
      - rewrite Nat.min_r by lia. by rewrite !take_ge by lia. }
    assert (Hdrop : forall k, drop (Nat.min k (length l)) l = drop k l).
    { intros k. destruct (le_lt_dec k (length l)).
      - by rewrite Nat.min_l by lia.
      - rewrite Nat.min_r by lia. by rewrite !drop_ge by lia. }
    split.
    + by rewrite take_take_drop_app, Hsum, Htake.
    + by rewrite drop_drop, Hsum, Hdrop.
Qed.

Lemma TestValueReceiver_reads_partition_witness :
  exists r1 r2 self1 self2,
    read 1 (mkEnv [] ∅)
         (mkIO None false (mkTestValueReceiver [Byte.x00; Byte.x01; Byte.x00; Byte.x00]))
    = (Return (Bytes r1), mkEnv [] ∅, mkIO None false self1)
    /\ read 5 (mkEnv [] ∅) (mkIO None false self1)
       = (Return (Bytes r2), mkEnv [] ∅, mkIO None false self2)
    /\ r1 ++ r2 = take (Z.to_nat (1 + 5)) [Byte.x00; Byte.x01; Byte.x00; Byte.x00]
    /\ bytes self2 = drop (Z.to_nat (1 + 5)) [Byte.x00; Byte.x01; Byte.x00; Byte.x00].
Proof.
  apply (proj2 (TestValueReceiver_reads_partition (mkEnv [] ∅)
                  (mkTestValueReceiver [Byte.x00; Byte.x01; Byte.x00; Byte.x00]))
           1 5); lia.
Defined.

(** ** The read-write lock: progress *)

Section LockProgress.
Import Exclusion.



End LockProgress.

